(** * keyverbum: the topical pagerank keyphrase extractor

    A shallow embedding of [TopicalPagerank] from
    [src/keyverbum/keywords.py] and the properties of its specification.

    Python values are modelled as follows.
    - [str] is [string], read as ASCII text, so [len], [==] and [<] on
      strings are [String.length], [=] and [String.ltb].
    - [float] is the primitive binary64 [float] of the kernel, with the
      IEEE operations Python uses.
    - a [dict] (and [defaultdict]) whose iteration order is observed is an
      association list in insertion order ([pydict]); a [dict] that is only
      looked up is a [gmap].
    - a [frozenset] of strings is the list of its elements in the order
      the interpreter iterates over them; which order that is depends on
      the string hashes of the running process and is a parameter.
    - an exception is a value of [exn]; code that can raise returns [res],
      and code that also mutates [self] threads the instance through [M].
    - the third-party libraries (pymorphy2, nltk, scikit-learn's analyzer,
      scipy's clustering, networkx's pagerank) are the fields of
      [Externals]. *)

From Stdlib Require Import PrimFloat Uint63 ZArith QArith Ascii String OrdersEx.
From stdpp Require Import gmap strings list sorting.

Local Open Scope string_scope.
Local Open Scope list_scope.
Local Open Scope Z_scope.

(** ** Python runtime *)

Module Py.

Inductive exn : Type :=
| ValueError
| ZeroDivisionError
| KeyError
| IndexError
| PowerIterationFailedConvergence.

Inductive res (A : Type) : Type :=
| Ok (a : A)
| Raise (e : exn).
Arguments Ok {A} a.
Arguments Raise {A} e.

(** Computations over a mutable store [S] that may raise.  The store
    that comes back is the one left behind, also after an exception. *)
Definition M (S A : Type) : Type := S -> S * res A.

Definition ret {S A} (a : A) : M S A := fun s => (s, Ok a).

Definition raise {S A} (e : exn) : M S A := fun s => (s, Raise e).

Definition bind {S A B} (c : M S A) (k : A -> M S B) : M S B :=
  fun s =>
    match c s with
    | (s', Ok a) => k a s'
    | (s', Raise e) => (s', Raise e)
    end.

Definition lift {S A} (r : res A) : M S A := fun s => (s, r).

(** [for x in xs: acc = body(acc, x)] *)
Fixpoint for_fold {S A B} (xs : list A) (acc : B) (body : B -> A -> M S B)
  : M S B :=
  match xs with
  | [] => ret acc
  | x :: xs' => bind (body acc x) (fun acc' => for_fold xs' acc' body)
  end.

(** [[f(x) for x in xs]] where [f] may raise. *)
Fixpoint for_list {A B} (xs : list A) (f : A -> res B) : res (list B) :=
  match xs with
  | [] => Ok []
  | x :: xs' =>
      match f x with
      | Raise e => Raise e
      | Ok b =>
          match for_list xs' f with
          | Raise e => Raise e
          | Ok bs => Ok (b :: bs)
          end
      end
  end.

(** *** Sorting: [sorted(l)] and [sorted(l, reverse=True)]

    Both are stable.  [ins before x l] puts [x] in front of the first
    element that need not come strictly before it. *)
Fixpoint ins {A} (before : A -> A -> bool) (x : A) (l : list A) : list A :=
  match l with
  | [] => [x]
  | y :: l' => if before y x then y :: ins before x l' else x :: y :: l'
  end.

Definition sorted {A} (lt : A -> A -> bool) (l : list A) : list A :=
  foldr (ins lt) [] l.

Definition sorted_reverse {A} (lt : A -> A -> bool) (l : list A) : list A :=
  foldr (ins (fun y x => lt x y)) [] l.

(** [l1 < l2] on lists of strings. *)
Fixpoint list_str_lt (l1 l2 : list string) : bool :=
  match l1, l2 with
  | [], [] => false
  | [], _ :: _ => true
  | _ :: _, [] => false
  | x :: l1', y :: l2' =>
      if String.eqb x y then list_str_lt l1' l2' else String.ltb x y
  end.

(** [(c1, t1) < (c2, t2)] on the pairs of [unstem_map]. *)
Definition pair_lt (p q : nat * string) : bool :=
  if Nat.eqb p.1 q.1 then String.ltb p.2 q.2 else Nat.ltb p.1 q.1.

(** [(b1, l1) < (b2, l2)] on the (score, members) pairs of [topics]. *)
Definition topic_lt (p q : float * list string) : bool :=
  if PrimFloat.eqb p.1 q.1 then list_str_lt p.2 q.2
  else PrimFloat.ltb p.1 q.1.

(** *** Strings *)

(** [sep.join(l)] *)
Fixpoint join (sep : string) (l : list string) : string :=
  match l with
  | [] => ""
  | x :: l' =>
      match l' with
      | [] => x
      | _ :: _ => String.append x (String.append sep (join sep l'))
      end
  end.

(** [s.split(" ")]: every single space separates, so two spaces in a
    row give an empty piece, and the empty string gives [[""]]. *)
Fixpoint split_space (s : string) : list string :=
  match s with
  | EmptyString => [""]
  | String c s' =>
      if Ascii.eqb c " "%char then "" :: split_space s'
      else
        match split_space s' with
        | [] => [String c ""]
        | w :: ws => String c w :: ws
        end
  end.

Definition lower_char (c : ascii) : ascii :=
  let n := nat_of_ascii c in
  if (Nat.leb 65 n && Nat.leb n 90)%bool then ascii_of_nat (n + 32) else c.

(** [s.lower()], on the letters A to Z. *)
Fixpoint lower (s : string) : string :=
  match s with
  | EmptyString => EmptyString
  | String c s' => String (lower_char c) (lower s')
  end.

(** *** Dictionaries in insertion order *)

Definition pydict (K V : Type) : Type := list (K * V).

Section Dict.
Context {K V : Type} `{EqDecision K}.

Fixpoint dict_get (k : K) (d : pydict K V) : option V :=
  match d with
  | [] => None
  | (k', v) :: d' => if decide (k = k') then Some v else dict_get k d'
  end.

(** [d[k] = v]: an existing key keeps its place. *)
Fixpoint dict_set (k : K) (v : V) (d : pydict K V) : pydict K V :=
  match d with
  | [] => [(k, v)]
  | (k', v') :: d' =>
      if decide (k = k') then (k', v) :: d' else (k', v') :: dict_set k v d'
  end.

Definition dict_keys (d : pydict K V) : list K := d.*1.

Definition dict_values (d : pydict K V) : list V := d.*2.
End Dict.

(** [d[k]] on a [defaultdict(list)]: a missing key is inserted with
    the empty list, and the dictionary that comes back has it. *)
Definition defaultdict_getitem {K V} `{EqDecision K}
    (k : K) (d : pydict K (list V)) : pydict K (list V) * list V :=
  match dict_get k d with
  | Some v => (d, v)
  | None => (dict_set k [] d, [])
  end.

(** [d[k].append(x)] on a [defaultdict(list)]. *)
Definition defaultdict_append {K V} `{EqDecision K}
    (k : K) (x : V) (d : pydict K (list V)) : pydict K (list V) :=
  let '(d', v) := defaultdict_getitem k d in dict_set k (v ++ [x]) d'.

(** [l[:n]] *)
Definition slice_to {A} (n : Z) (l : list A) : list A :=
  if 0 <=? n then take (Z.to_nat n) l
  else take (length l - Z.to_nat (- n)) l.

(** [list(enumerate(l))] *)
Definition enumerate {A} (l : list A) : list (nat * A) :=
  zip (seq 0 (length l)) l.

(** [list(itertools.product(l1, l2))] *)
Definition product {A B} (l1 : list A) (l2 : list B) : list (A * B) :=
  a ← l1; (fun b => (a, b)) <$> l2.

(** [1 / d] for an [int] [d], below 2^53 in absolute value. *)
Definition true_div_1 (d : Z) : res float :=
  if decide (d = 0) then Raise ZeroDivisionError
  else
    let q :=
      PrimFloat.div 1%float (PrimFloat.of_uint63 (Uint63.of_Z (Z.abs d))) in
    Ok (if d <? 0 then PrimFloat.opp q else q).

End Py.
Import Py.

Notation "'let*' x ':=' c 'in' k" := (bind c (fun x => k))
  (at level 10, x name, c at level 100, k at level 200).

(** ** Collaborators *)

(** [Stemmer.transform]; [NoneStemmer] is the one stemmer of the module
    that needs no morphological analyzer. *)
Class Stemmer : Type := transform : string -> string.

Definition NoneStemmer : Stemmer := Py.lower.

(** What [_extract_phrases] reads from [morph.parse(token)[0]]:
    [str(p.tag)] and [p.tag.POS] (which is [None] for punctuation). *)
Record Parse : Type := {
  tag : string;
  POS : option string;
}.

(** The libraries behind the extractor.  [analyzer] is the default
    analyzer of [CountVectorizer] (lower-casing, then the tokens of
    [token_pattern]); [linkage], [cophenet] and [fcluster] are scipy's,
    on the dense count matrix; [pagerank] is the numerical core of
    [nx.pagerank], which answers with one score per node of the graph, in
    node order; [frozenset_iter l] is the order in which the running
    interpreter iterates over [frozenset(l)]. *)
Record Externals : Type := {
  morph_parse : string -> Parse;
  nltk_pos_tag : string -> string;
  stemmer : Stemmer;
  analyzer : string -> list string;
  Linkage : Type;
  linkage : list (list nat) -> string -> res Linkage;
  cophenet : Linkage -> list (list nat) -> res float;
  fcluster : Linkage -> float -> res (list nat);
  pagerank :
    list (list string) -> list (list string * list string * float) ->
    res (list float);
  frozenset_iter : list string -> list string;
}.

(** [frozenset(l)] has the elements of [l], each once. *)
Definition frozenset_ok (E : Externals) : Prop :=
  forall l, NoDup (frozenset_iter E l) /\
            forall x, x ∈ frozenset_iter E l <-> x ∈ l.

(** ** The extractor *)

Record TopicalPagerank : Type := {
  n_keywords : Z;
  tag_set : gset string;
  phrases : pydict string (list nat);
  unstem_map : gmap string (nat * string);
  text : list string;
  topics : list (float * list string);
}.

Definition set_phrases (d : pydict string (list nat)) (self : TopicalPagerank)
  : TopicalPagerank :=
  {| n_keywords := n_keywords self; tag_set := tag_set self; phrases := d;
     unstem_map := unstem_map self; text := text self;
     topics := topics self |}.

Definition set_unstem_map (m : gmap string (nat * string))
    (self : TopicalPagerank) : TopicalPagerank :=
  {| n_keywords := n_keywords self; tag_set := tag_set self;
     phrases := phrases self; unstem_map := m; text := text self;
     topics := topics self |}.

Definition set_text (X : list string) (self : TopicalPagerank)
  : TopicalPagerank :=
  {| n_keywords := n_keywords self; tag_set := tag_set self;
     phrases := phrases self; unstem_map := unstem_map self; text := X;
     topics := topics self |}.

Definition set_topics (ts : list (float * list string))
    (self : TopicalPagerank) : TopicalPagerank :=
  {| n_keywords := n_keywords self; tag_set := tag_set self;
     phrases := phrases self; unstem_map := unstem_map self;
     text := text self; topics := ts |}.

Definition default_tag_set : gset string :=
  {[ "ADJF"; "ADJS"; "NOUN"; "JJ"; "JJR"; "JJS"; "NN"; "NNS"; "NNP"; "NNPS" ]}.

(** [TopicalPagerank(morph, stemmer, n_keywords)] *)
Definition __init__ (n : Z) : TopicalPagerank :=
  {| n_keywords := n; tag_set := default_tag_set; phrases := [];
     unstem_map := ∅; text := []; topics := [] |}.

Definition fit (X : list string) (self : TopicalPagerank) : TopicalPagerank :=
  set_text X self.

(** *** [_extract_phrases] *)

(** The locals of the token loop, and [self.unstem_map]; [segments] is
    the local list [phrases]. *)
Record scan : Type := {
  segments : list (list string);
  positions : list nat;
  counter : nat;
  unstem : gmap string (nat * string);
}.

(** [phrases[-1].append(w)] *)
Definition append_last (w : string) (ps : list (list string))
  : list (list string) :=
  removelast ps ++ [default [] (last ps) ++ [w]].

(** [pos], as the loop computes it for one token. *)
Definition pos_of (E : Externals) (token : string) : option string :=
  let p := morph_parse E token in
  if decide (tag p = "LATN") then Some (nltk_pos_tag E token) else POS p.

Definition in_tag_set (tags : gset string) (pos : option string) : bool :=
  match pos with
  | Some t => bool_decide (t ∈ tags)
  | None => false
  end.

Definition scan_token (E : Externals) (tags : gset string)
    (st : scan) (token : string) : scan :=
  let st1 :=
    if in_tag_set tags (pos_of E token) then
      let stemmed_word := @transform (stemmer E) token in
      let st' :=
        if Nat.ltb 1 (String.length stemmed_word) then
          {| segments := append_last stemmed_word (segments st);
             positions := positions st;
             counter := counter st;
             unstem := <[stemmed_word := (counter st, token)]> (unstem st) |}
        else st in
      if Nat.eqb (length (default [] (last (segments st')))) 1 then
        {| segments := segments st';
           positions := positions st' ++ [counter st'];
           counter := counter st';
           unstem := unstem st' |}
      else st'
    else
      match default [] (last (segments st)) with
      | [] => st
      | _ :: _ =>
          {| segments := segments st ++ [[]];
             positions := positions st;
             counter := counter st;
             unstem := unstem st |}
      end in
  {| segments := segments st1; positions := positions st1;
     counter := S (counter st1); unstem := unstem st1 |}.

(** [[i for i, j in enumerate(phrases) if j == phrase]] *)
Definition same_segment_indices (phrase : list string)
    (ps : list (list string)) : list nat :=
  (filter (fun ij => ij.2 = phrase) (enumerate ps)).*1.

(** The key of a segment: [" ".join(sorted(phrase))]. *)
Definition phrase_key (phrase : list string) : string :=
  join " " (sorted String.ltb phrase).

(** The second loop: one assignment to [self.phrases] per segment. *)
Definition record_segments (ps : list (list string))
    (d : pydict string (list nat)) : pydict string (list nat) :=
  fold_left
    (fun d phrase =>
       match phrase with
       | [] => d
       | _ :: _ => dict_set (phrase_key phrase) (same_segment_indices phrase ps) d
       end)
    ps d.

Definition scan_text (E : Externals) (self : TopicalPagerank) : scan :=
  fold_left (scan_token E (tag_set self)) (text self)
    {| segments := [[]]; positions := []; counter := 0;
       unstem := unstem_map self |}.

Definition _extract_phrases (E : Externals) (self : TopicalPagerank)
  : TopicalPagerank :=
  let st := scan_text E self in
  set_phrases (record_segments (segments st) (phrases self))
    (set_unstem_map (unstem st) self).

(** *** [calc_distance] *)

(** [self.phrases[k]], on the [defaultdict]. *)
Definition getitem (k : string) : M (pydict string (list nat)) (list nat) :=
  fun d => let '(d', v) := defaultdict_getitem k d in (d', Ok v).

(** The accumulator starts as the [int] 0, which the first addition turns
    into a [float]; a call that adds nothing returns 0, here [0%float]. *)
Definition calc_distance (topic_a topic_b : list string)
  : M (pydict string (list nat)) float :=
  for_fold topic_a 0%float (fun result phrase_a =>
    for_fold topic_b result (fun result phrase_b =>
      if decide (phrase_a <> phrase_b) then
        let* phrase_a_positions := getitem phrase_a in
        let* phrase_b_positions := getitem phrase_b in
        for_fold (product phrase_a_positions phrase_b_positions) result
          (fun result ab =>
             let* q := lift (true_div_1 (Z.abs (Z.of_nat ab.1 - Z.of_nat ab.2))) in
             ret (PrimFloat.add result q))
      else ret result)).

(** *** [CountVectorizer]

    [fit_transform] analyzes every document, takes the sorted set of all
    tokens as vocabulary (refusing an empty one) and counts, per document,
    the occurrences of every vocabulary term. *)
Definition fit_transform (E : Externals) (docs : list string)
  : res (list string * list (list nat)) :=
  let analyzed := map (analyzer E) docs in
  let vocabulary := sorted String.ltb (remove_dups (concat analyzed)) in
  match vocabulary with
  | [] => Raise ValueError
  | _ :: _ =>
      Ok (vocabulary,
          map (fun doc =>
                 map (fun term => length (filter (fun t => t = term) doc))
                     vocabulary)
              analyzed)
  end.

(** [count.inverse_transform(row)[0]]: the terms whose count is not 0. *)
Definition inverse_transform (vocabulary : list string) (row : list nat)
  : list string :=
  (filter (fun tc => tc.2 <> 0%nat) (zip vocabulary row)).*1.

(** *** [_identify_topics] *)

(** The loop over [enumerate(clusters)] that fills [cluster_data]. *)
Fixpoint group_clusters (vocabulary : list string) (bag : list (list nat))
    (ncs : list (nat * nat)) (cluster_data : pydict nat (list string))
  : res (pydict nat (list string)) :=
  match ncs with
  | [] => Ok cluster_data
  | (n, cluster) :: ncs' =>
      match bag !! n with
      | None => Raise IndexError
      | Some row =>
          group_clusters vocabulary bag ncs'
            (defaultdict_append cluster
               (join " " (sorted String.ltb (inverse_transform vocabulary row)))
               cluster_data)
      end
  end.

(** [u == v] on frozensets. *)
Definition frozenset_eqb (u v : list string) : bool :=
  bool_decide (list_to_set u =@{gset string} list_to_set v).

(** The list handed to [add_weighted_edges_from]. *)
Definition weighted_edges (topic_clusters : list (list string))
  : M (pydict string (list nat)) (list (list string * list string * float)) :=
  for_fold topic_clusters [] (fun edges v =>
    for_fold topic_clusters edges (fun edges u =>
      if frozenset_eqb u v then ret edges
      else
        let* w := calc_distance v u in
        ret (edges ++ [(v, u, w)]))).

(** The nodes of the graph: the end points of the edges, in the order
    in which [add_weighted_edges_from] first meets them. *)
Definition add_node (v : list string) (nodes : list (list string))
  : list (list string) :=
  if existsb (frozenset_eqb v) nodes then nodes else nodes ++ [v].

Definition graph_nodes (edges : list (list string * list string * float))
  : list (list string) :=
  fold_left (fun nodes e => add_node e.1.2 (add_node e.1.1 nodes)) edges [].

(** Run [c] on [self.phrases]. *)
Definition on_phrases {A} (c : M (pydict string (list nat)) A)
  : M TopicalPagerank A :=
  fun self => let '(d, r) := c (phrases self) in (set_phrases d self, r).

(** Lines 226 to 243: vectorize the keys, cluster the rows, and collect
    the members of every cluster, [cluster_data.values()].  The warning on
    a cophenetic correlation below 0.8 only writes to the log. *)
Definition identify_clusters (E : Externals) (strategy : string)
    (max_d : float) (keys : list string) : res (list (list string)) :=
  match fit_transform E keys with
  | Raise e => Raise e
  | Ok (vocabulary, bag) =>
  match linkage E bag strategy with
  | Raise e => Raise e
  | Ok link =>
  match cophenet E link bag with
  | Raise e => Raise e
  | Ok c =>
  match fcluster E link max_d with
  | Raise e => Raise e
  | Ok clusters =>
  match group_clusters vocabulary bag (enumerate clusters) [] with
  | Raise e => Raise e
  | Ok cluster_data => Ok (dict_values cluster_data)
  end end end end end.

(** Lines 244 to 261: the graph over the clusters, and its ranking. *)
Definition _identify_topics (E : Externals) (strategy : string) (max_d : float)
  : M TopicalPagerank unit :=
  fun self =>
    match identify_clusters E strategy max_d (dict_keys (phrases self)) with
    | Raise e => (self, Raise e)
    | Ok cluster_values =>
        let topic_clusters := map (frozenset_iter E) cluster_values in
        match on_phrases (weighted_edges topic_clusters) self with
        | (self, Raise e) => (self, Raise e)
        | (self, Ok edges) =>
            let nodes := graph_nodes edges in
            match pagerank E nodes edges with
            | Raise e => (self, Raise e)
            | Ok scores =>
                let pr := zip nodes scores in
                (set_topics
                   (sorted_reverse topic_lt (map (fun ab => (ab.2, ab.1)) pr))
                   self,
                 Ok tt)
            end
        end
    end.

(** *** [predict] *)

(** Lines 283 to 285: the surface form of the first member of a topic. *)
Definition first_kp (topic : list string) : option string := head topic.

Definition unstem_kp (m : gmap string (nat * string)) (kp : string)
  : res string :=
  match
    for_list (split_space kp)
      (fun i => match m !! i with
                | Some p => Ok p
                | None => Raise KeyError
                end)
  with
  | Raise e => Raise e
  | Ok ps => Ok (join " " (map snd (sorted pair_lt ps)))
  end.

(** A value of [extract_strategy] other than "first" only writes a
    warning to the log. *)
Definition predict (E : Externals) (X : list string)
    (cluster_strategy : string) (max_d : float) (extract_strategy : string)
  : M TopicalPagerank (list string) :=
  fun self =>
    let self := fit X self in
    let self := _extract_phrases E self in
    match _identify_topics E cluster_strategy max_d self with
    | (self, Raise e) => (self, Raise e)
    | (self, Ok _) =>
        for_fold (slice_to (n_keywords self) (topics self)) []
          (fun result rank_topic =>
             match first_kp rank_topic.2 with
             | None => ret result
             | Some kp =>
                 let* s := lift (unstem_kp (unstem_map self) kp) in
                 ret (result ++ [s])
             end)
          self
    end.

(** ** A small installation

    Concrete collaborators for the examples: a tagger that knows a dozen
    English words, [NoneStemmer], the analyzer of [CountVectorizer] on
    ASCII text, and stand-ins for scipy and networkx that answer as the
    libraries do on the inputs of the examples. *)

Module Fixture.

(** pymorphy2 tags a token in Latin script as LATN and punctuation as
    PNCT, neither with a part of speech. *)
Definition parse_token (token : string) : Parse :=
  if decide (token = ".") then {| tag := "PNCT"; POS := None |}
  else {| tag := "LATN"; POS := None |}.

Definition pos_tag (token : string) : string :=
  if bool_decide (token ∈ ["red"; "quick"; "brown"; "lazy"]) then "JJ"
  else if bool_decide (token ∈ ["fox"; "dog"; "cat"; "owl"]) then "NN"
  else if bool_decide (token ∈ ["and"; "or"]) then "CC"
  else "DT".

Definition is_word_char (c : ascii) : bool :=
  let n := nat_of_ascii c in
  ((Nat.leb 97 n && Nat.leb n 122) || (Nat.leb 65 n && Nat.leb n 90)
   || (Nat.leb 48 n && Nat.leb n 57) || Nat.eqb n 95)%bool.

(** [re.findall(r"\b\w\w+\b", s)]: the maximal runs of word characters
    that are at least two long.  [run] is the run being read, reversed. *)
Fixpoint word_tokens (run : list ascii) (s : string) : list string :=
  let close :=
    match run with
    | _ :: _ :: _ => [string_of_list_ascii (reverse run)]
    | _ => []
    end in
  match s with
  | EmptyString => close
  | String c s' =>
      if is_word_char c then word_tokens (c :: run) s'
      else close ++ word_tokens [] s'
  end.

Definition ascii_analyzer (doc : string) : list string :=
  word_tokens [] (Py.lower doc).

(** scipy refuses to link fewer than two observations. *)
Definition scipy_linkage (bag : list (list nat)) (strategy : string)
  : res (list (list nat)) :=
  if Nat.ltb (length bag) 2 then Raise ValueError else Ok bag.

Definition scipy_cophenet (link : list (list nat)) (bag : list (list nat))
  : res float := Ok 1%float.

Definition sq_dist (r1 r2 : list nat) : nat :=
  foldr Nat.add 0%nat
    (zip_with (fun a b => ((a - b) + (b - a)) * ((a - b) + (b - a)))%nat r1 r2).

(** Every observation joins the first one within Euclidean distance 1
    of it.  For [max_d = 1.25] this is the partition scipy's average
    linkage gives on the matrices of the examples: rows that are pairwise
    at distance [sqrt 2], and the rows [[0,1,1]], [[0,1,0]], [[1,0,0]]. *)
Definition scipy_fcluster (link : list (list nat)) (max_d : float)
  : res (list nat) :=
  Ok (map (fun r =>
             S (default 0%nat
                  (head (filter (fun i => Nat.leb (sq_dist (link !!! i) r) 1 = true)
                                (seq 0 (length link))))))
          link).

(** On a graph of two nodes pagerank gives both the same score. *)
Definition nx_pagerank (nodes : list (list string))
    (edges : list (list string * list string * float)) : res (list float) :=
  Ok (map (fun _ => PrimFloat.div 1%float
                      (PrimFloat.of_uint63 (Uint63.of_Z (Z.of_nat (length nodes)))))
          nodes).

(** Two interpreters: one iterates a frozenset in the order of first
    insertion, the other in the opposite order. *)
Definition iter_order (opposite : bool) (l : list string) : list string :=
  if opposite then reverse (remove_dups l) else remove_dups l.

Definition externals (opposite : bool) : Externals :=
  {| morph_parse := parse_token;
     nltk_pos_tag := pos_tag;
     stemmer := NoneStemmer;
     analyzer := ascii_analyzer;
     Linkage := list (list nat);
     linkage := scipy_linkage;
     cophenet := scipy_cophenet;
     fcluster := scipy_fcluster;
     pagerank := nx_pagerank;
     frozenset_iter := iter_order opposite |}.

Definition run (opposite : bool) (n : Z) (X : list string)
  : res (list string) :=
  (predict (externals opposite) X "average" 1.25%float "first" (__init__ n)).2.

End Fixture.

(** ** What [calc_distance] adds up *)

(** The occurrence list a lookup of [k] yields, present or not. *)
Definition occ (d : pydict string (list nat)) (k : string) : list nat :=
  default [] (dict_get k d).

(** [abs(a - b)] *)
Definition gap (ab : nat * nat) : Z := Z.abs (Z.of_nat ab.1 - Z.of_nat ab.2).

Definition pair_gaps (d : pydict string (list nat)) (pa pb : string)
  : list Z :=
  if decide (pa <> pb) then gap <$> product (occ d pa) (occ d pb) else [].

(** The denominators of the terms of [calc_distance(A, B)], in the order
    in which the three nested loops meet them. *)
Definition gaps (d : pydict string (list nat)) (A B : list string) : list Z :=
  pa ← A; pb ← B; pair_gaps d pa pb.

(** [result += 1 / t] for every [t], from the left. *)
Fixpoint add_terms (result : float) (ts : list Z) : res float :=
  match ts with
  | [] => Ok result
  | t :: ts' =>
      match true_div_1 t with
      | Raise e => Raise e
      | Ok q => add_terms (PrimFloat.add result q) ts'
      end
  end.

(** Two distinct keys, one of each group, occur at the same index. *)
Definition shares_index (d : pydict string (list nat)) (A B : list string)
  : Prop :=
  exists pa pb i, pa ∈ A /\ pb ∈ B /\ pa <> pb /\ i ∈ occ d pa /\ i ∈ occ d pb.

(** The invariant of the data model: no key with an empty list. *)
Definition all_occupied (d : pydict string (list nat)) : Prop :=
  forall k v, dict_get k d = Some v -> v <> [].

(** Two stores in which every lookup yields the same list. *)
Definition same_occ (d d' : pydict string (list nat)) : Prop :=
  forall k, occ d k = occ d' k.

(** Every key of [d] is a key of [d']. *)
Definition grows {V} (d d' : pydict string V) : Prop :=
  forall k, k ∈ dict_keys d -> k ∈ dict_keys d'.

(** The occurrence list as the specification words it: the indices of
    all segments at which a phrase with the key [k] occurred. *)
Definition segment_indices_of_key (k : string) (ps : list (list string))
  : list nat :=
  (filter (fun ij => ij.2 <> [] /\ phrase_key ij.2 = k) (enumerate ps)).*1.

(** What the second loop of [_extract_phrases] writes for a key: the
    indices of the segments equal, word for word, to one segment with
    that key. *)
Definition recorded (ps : list (list string)) (k : string) (v : list nat)
  : Prop :=
  exists phrase,
    phrase <> [] /\ phrase ∈ ps /\ k = phrase_key phrase /\
    v = same_segment_indices phrase ps.

(** The sum of the terms [1 / t] in exact arithmetic. *)
Definition exact_sum (ts : list Z) : Q :=
  foldr (fun t acc => Qplus (Qdiv 1 (inject_Z t)) acc) 0%Q ts.

(** ** The preprocessing classes *)

Module BasicPreprocessor.

(** [re.sub(r"<[^>]*>", "", s)].  [tag] holds, reversed, the characters
    read since a '<' that is not closed yet: the next '>' drops them,
    the end of the string puts them back, since a '<' with no '>' after
    it starts no match. *)
Fixpoint strip_tags (tag : option (list ascii)) (s : string) : string :=
  match s with
  | EmptyString =>
      match tag with
      | Some buf => string_of_list_ascii (reverse buf)
      | None => EmptyString
      end
  | String c s' =>
      match tag with
      | None =>
          if Ascii.eqb c "<"%char then strip_tags (Some [c]) s'
          else String c (strip_tags None s')
      | Some buf =>
          if Ascii.eqb c ">"%char then strip_tags None s'
          else strip_tags (Some (c :: buf)) s'
      end
  end.

(** [re.sub(r"[\W]+", " ", s)]: every maximal run of characters that are
    not word characters becomes one space.  [gap] tells that the
    character before was not a word character. *)
Fixpoint squeeze (gap : bool) (s : string) : string :=
  match s with
  | EmptyString => EmptyString
  | String c s' =>
      if Fixture.is_word_char c then String c (squeeze false s')
      else if gap then squeeze true s'
      else String " "%char (squeeze true s')
  end.

Definition transform (X : string) : string :=
  let text := strip_tags None X in
  squeeze false (Py.lower text).

End BasicPreprocessor.

Module Tokenizer.

(** The ASCII characters that [str.split()] treats as white space. *)
Definition is_space (c : ascii) : bool :=
  let n := nat_of_ascii c in
  (Nat.eqb n 32 || (Nat.leb 9 n && Nat.leb n 13)
   || (Nat.leb 28 n && Nat.leb n 31))%bool.

(** The pieces between any two white-space characters, empty ones
    included. *)
Fixpoint pieces (s : string) : list string :=
  match s with
  | EmptyString => [EmptyString]
  | String c s' =>
      if is_space c then EmptyString :: pieces s'
      else
        match pieces s' with
        | [] => [String c EmptyString]
        | w :: ws => String c w :: ws
        end
  end.

(** [X.split()]: the pieces that are not empty.  The argument is a
    string by its type, so the [TypeError] branch is not there. *)
Definition transform (X : string) : list string :=
  filter (fun w => w <> EmptyString) (pieces X).

End Tokenizer.

Module StopwordsFilter.

(** What [transform] is given: a string, or an iterable of such values. *)
#[local] Unset Elimination Schemes.
Inductive texts : Type :=
| Str (s : string)
| Iter (xs : list texts).
#[local] Set Elimination Schemes.

(** [None] is Python's [None], returned for a stop word; an iterable
    comes back as the list of the results that are not [None]. *)
Fixpoint transform (stopwords : gset string) (X : texts) : option texts :=
  match X with
  | Str s => if decide (s ∈ stopwords) then None else Some (Str s)
  | Iter xs => Some (Iter (omap (transform stopwords) xs))
  end.

(** The strings of a value, from left to right. *)
Fixpoint leaves (X : texts) : list string :=
  match X with
  | Str s => [s]
  | Iter xs => concat (map leaves xs)
  end.

End StopwordsFilter.

Module TfIdf.

(** The key of [__sort_coo]: [(x[1], x[0])], compared as tuples. *)
Definition coo_lt (p q : nat * float) : bool :=
  if PrimFloat.eqb p.2 q.2 then Nat.ltb p.1 q.1 else PrimFloat.ltb p.2 q.2.

(** [sorted(zip(coo.col, coo.data), key=..., reverse=True)] *)
Definition __sort_coo (col : list nat) (data : list float)
  : list (nat * float) :=
  sorted_reverse coo_lt (zip col data).

(** [round3] is the builtin [round(score, 3)].  Both lists of the first
    loop are filled in step, so they are kept as one list of pairs. *)
Definition _extract_topn_from_vector (round3 : float -> float)
    (feature_names : list string) (sorted_items : list (nat * float))
    (topn : Z) : res (pydict string float) :=
  let sorted_items := slice_to topn sorted_items in
  match
    for_list sorted_items
      (fun item =>
         match feature_names !! item.1 with
         | Some name => Ok (name, round3 item.2)
         | None => Raise IndexError
         end)
  with
  | Raise e => Raise e
  | Ok vals =>
      Ok (fold_left (fun results fv => dict_set fv.1 fv.2 results) vals [])
  end.

(** [predict], from the COO form of [self.tfidf.transform(X)] on. *)
Definition predict (round3 : float -> float) (feature_names : list string)
    (n_keywords : Z) (col : list nat) (data : list float)
  : res (list string) :=
  let sorted_items := __sort_coo col data in
  match
    _extract_topn_from_vector round3 feature_names sorted_items n_keywords
  with
  | Raise e => Raise e
  | Ok keywords =>
      Ok (map fst
            (sorted (fun p q : string * float => PrimFloat.ltb p.2 q.2)
               keywords))
  end.

End TfIdf.

(** ** Shapes of strings *)

(** A lower-case letter, a digit or the underscore. *)
Definition lower_word_char (c : ascii) : bool :=
  let n := nat_of_ascii c in
  ((Nat.leb 97 n && Nat.leb n 122) || (Nat.leb 48 n && Nat.leb n 57)
   || Nat.eqb n 95)%bool.

(** Lower-case word characters and single spaces only. *)
Fixpoint clean_from (gap : bool) (s : string) : bool :=
  match s with
  | EmptyString => true
  | String c s' =>
      if lower_word_char c then clean_from false s'
      else (Ascii.eqb c " "%char && negb gap && clean_from true s')%bool
  end.

Definition clean (s : string) : bool := clean_from false s.

Fixpoint all_chars (P : ascii -> bool) (s : string) : bool :=
  match s with
  | EmptyString => true
  | String c s' => (P c && all_chars P s')%bool
  end.

(** Not empty and without white space. *)
Definition is_token (w : string) : bool :=
  (negb (String.eqb w EmptyString)
   && all_chars (fun c => negb (Tokenizer.is_space c)) w)%bool.

(** ASCII text: every character code is below 128.  On such text
    [lower], [\W] and the white space of [split] are as modelled above;
    Python knows more letters and more white space beyond it. *)
Definition ascii_text (s : string) : bool :=
  all_chars (fun c => Nat.ltb (nat_of_ascii c) 128) s.

(** Without the character that [" ".join] puts between words. *)
Definition spaceless (w : string) : bool :=
  all_chars (fun c => negb (Ascii.eqb c " "%char)) w.

(** ** The runtime *)

Lemma ins_Permutation {A} (before : A -> A -> bool) x l :
  ins before x l ≡ₚ x :: l.
Proof.
  induction l as [|y l IH]; simpl; [done|].
  destruct (before y x); [|done].
  rewrite IH. apply Permutation_swap.
Qed.

Lemma sorted_reverse_Permutation {A} (lt : A -> A -> bool) l :
  sorted_reverse lt l ≡ₚ l.
Proof.
  induction l as [|x l IH]; simpl; [done|].
  unfold sorted_reverse in *. simpl. by rewrite ins_Permutation, IH.
Qed.

Lemma dict_get_set {K V} `{EqDecision K} (k k' : K) (v : V) d :
  dict_get k' (dict_set k v d) = if decide (k' = k) then Some v else dict_get k' d.
Proof.
  induction d as [|[k0 v0] d IH]; simpl.
  - repeat case_decide; congruence.
  - destruct (decide (k = k0)) as [->|Hne]; simpl.
    + repeat case_decide; congruence.
    + rewrite IH. repeat case_decide; congruence.
Qed.

Lemma dict_keys_set {K V} `{EqDecision K} (k k' : K) (v : V) d :
  k' ∈ dict_keys d -> k' ∈ dict_keys (dict_set k v d).
Proof.
  unfold dict_keys. induction d as [|[k0 v0] d IH]; simpl.
  - by intros ?%elem_of_nil.
  - intros Hin. destruct (decide (k = k0)) as [->|Hne]; simpl; [done|].
    apply elem_of_cons in Hin as [->|Hin]; [left|right; auto].
Qed.

Lemma dict_get_keys {K V} `{EqDecision K} (k : K) (d : pydict K V) :
  is_Some (dict_get k d) <-> k ∈ dict_keys d.
Proof.
  unfold dict_keys. induction d as [|[k0 v0] d IH]; simpl.
  - split; [by intros [? ?]|by intros ?%elem_of_nil].
  - case_decide as Hk.
    + subst. split; [left|eauto].
    + rewrite IH. split; [by right|].
      intros [?|?]%elem_of_cons; [done|done].
Qed.

(** ** [calc_distance] is [add_terms] over [gaps] *)

Lemma add_terms_app result ts1 ts2 :
  add_terms result (ts1 ++ ts2) =
  match add_terms result ts1 with
  | Ok result' => add_terms result' ts2
  | Raise e => Raise e
  end.
Proof.
  revert result. induction ts1 as [|t ts1 IH]; intros result; simpl; [done|].
  destruct (true_div_1 t); [apply IH|done].
Qed.

Lemma getitem_occ k d :
  (getitem k d).2 = Ok (occ d k) /\ same_occ (getitem k d).1 d.
Proof.
  unfold getitem, defaultdict_getitem, same_occ, occ.
  destruct (dict_get k d) as [v|] eqn:Hk; simpl; [done|].
  split; [done|]. intros k'. rewrite dict_get_set.
  case_decide; [subst; by rewrite Hk|done].
Qed.

Lemma for_fold_cons {S A B} (x : A) xs (acc : B) (body : B -> A -> M S B) s :
  for_fold (x :: xs) acc body s =
  match body acc x s with
  | (s', Ok acc') => for_fold xs acc' body s'
  | (s', Raise e) => (s', Raise e)
  end.
Proof. reflexivity. Qed.

Lemma positions_loop (l : list (nat * nat)) result (d : pydict string (list nat)) :
  for_fold l result
    (fun result ab =>
       let* q := lift (true_div_1 (Z.abs (Z.of_nat ab.1 - Z.of_nat ab.2))) in
       ret (PrimFloat.add result q)) d
  = (d, add_terms result (gap <$> l)).
Proof.
  revert result. induction l as [|ab l IH]; intros result; [done|].
  rewrite for_fold_cons. simpl. unfold bind, lift, gap at 1.
  destruct (true_div_1 _); simpl; [apply IH|done].
Qed.

Lemma grows_refl {V} (d : pydict string V) : grows d d.
Proof. by intros k. Qed.

Lemma grows_trans {V} (d1 d2 d3 : pydict string V) :
  grows d1 d2 -> grows d2 d3 -> grows d1 d3.
Proof. intros H12 H23 k Hk. auto. Qed.

Lemma getitem_run k d :
  exists d',
    getitem k d = (d', Ok (occ d k)) /\ same_occ d' d /\ grows d d' /\
    k ∈ dict_keys d'.
Proof.
  pose proof (getitem_occ k d) as [Hr Hd]. revert Hr Hd.
  unfold getitem, defaultdict_getitem.
  destruct (dict_get k d) as [v|] eqn:Hk; simpl; intros Hr Hd.
  - exists d. rewrite <-Hr. split_and!; [done|done|apply grows_refl|].
    apply dict_get_keys. by rewrite Hk.
  - exists (dict_set k [] d). rewrite <-Hr. split_and!; [done|done| |].
    + intros k'. apply dict_keys_set.
    + apply dict_get_keys. rewrite dict_get_set, decide_True by done. eauto.
Qed.

Lemma pair_loop pa pb result d :
  pa <> pb ->
  exists d',
    (let* phrase_a_positions := getitem pa in
     let* phrase_b_positions := getitem pb in
     for_fold (product phrase_a_positions phrase_b_positions) result
       (fun result ab =>
          let* q := lift (true_div_1 (Z.abs (Z.of_nat ab.1 - Z.of_nat ab.2))) in
          ret (PrimFloat.add result q))) d
    = (d', add_terms result (pair_gaps d pa pb)) /\
    same_occ d' d /\ grows d d' /\ pa ∈ dict_keys d' /\ pb ∈ dict_keys d'.
Proof.
  intros Hne. unfold pair_gaps. rewrite decide_True by done.
  destruct (getitem_run pa d) as (d1 & Ha & Hda & Hga & Hka).
  destruct (getitem_run pb d1) as (d2 & Hb & Hdb & Hgb & Hkb).
  exists d2. unfold bind at 1. rewrite Ha. unfold bind at 1. rewrite Hb.
  rewrite positions_loop, (Hda pb).
  split_and!; [done| |by eapply grows_trans|auto|done].
  intros k. by rewrite Hdb, Hda.
Qed.

Lemma topic_b_loop pa B result d d0 :
  same_occ d d0 ->
  exists d',
    for_fold B result (fun result phrase_b =>
      if decide (pa <> phrase_b) then
        let* phrase_a_positions := getitem pa in
        let* phrase_b_positions := getitem phrase_b in
        for_fold (product phrase_a_positions phrase_b_positions) result
          (fun result ab =>
             let* q := lift (true_div_1 (Z.abs (Z.of_nat ab.1 - Z.of_nat ab.2))) in
             ret (PrimFloat.add result q))
      else ret result) d
    = (d', add_terms result (pb ← B; pair_gaps d0 pa pb)) /\
    same_occ d' d0 /\ grows d d' /\
    (forall r, add_terms result (pb ← B; pair_gaps d0 pa pb) = Ok r ->
       forall pb, pb ∈ B -> pa <> pb -> pa ∈ dict_keys d' /\ pb ∈ dict_keys d').
Proof.
  revert result d.
  induction B as [|pb B IH]; intros result d Hd.
  { exists d. split_and!; [done|done|apply grows_refl|].
    by intros ? ? ? ?%elem_of_nil. }
  rewrite for_fold_cons, bind_cons.
  assert (Hg : pair_gaps d0 pa pb = pair_gaps d pa pb)
    by (unfold pair_gaps; by rewrite !Hd).
  destruct (decide (pa <> pb)) as [Hne|Heq].
  - destruct (pair_loop pa pb result d Hne) as (d1 & -> & H1 & Hg1 & Hka & Hkb).
    rewrite Hg.
    assert (Hd1 : same_occ d1 d0) by (intros k; by rewrite H1, Hd).
    destruct (add_terms result (pair_gaps d pa pb)) as [result'|e] eqn:Hfirst.
    + destruct (IH result' d1 Hd1) as (d' & -> & Hd' & Hg' & Htouch).
      exists d'. rewrite add_terms_app, Hfirst.
      split_and!; [done|done|by eapply grows_trans|].
      intros r Hr pb' [->|Hin]%elem_of_cons Hne'; [split; by apply Hg'|].
      by apply (Htouch r).
    + exists d1. rewrite add_terms_app, Hfirst. by split_and!.
  - unfold pair_gaps at 1 3. rewrite decide_False by done. simpl.
    destruct (IH result d Hd) as (d' & -> & Hd' & Hg' & Htouch).
    exists d'. split_and!; [done|done|done|].
    intros r Hr pb' [->|Hin]%elem_of_cons Hne'; [done|]. by apply (Htouch r).
Qed.

Lemma topic_a_loop A B result d d0 :
  same_occ d d0 ->
  exists d',
    for_fold A result (fun result phrase_a =>
      for_fold B result (fun result phrase_b =>
        if decide (phrase_a <> phrase_b) then
          let* phrase_a_positions := getitem phrase_a in
          let* phrase_b_positions := getitem phrase_b in
          for_fold (product phrase_a_positions phrase_b_positions) result
            (fun result ab =>
               let* q := lift (true_div_1 (Z.abs (Z.of_nat ab.1 - Z.of_nat ab.2))) in
               ret (PrimFloat.add result q))
        else ret result)) d
    = (d', add_terms result (gaps d0 A B)) /\
    same_occ d' d0 /\ grows d d' /\
    (forall r, add_terms result (gaps d0 A B) = Ok r ->
       forall pa pb, pa ∈ A -> pb ∈ B -> pa <> pb ->
                     pa ∈ dict_keys d' /\ pb ∈ dict_keys d').
Proof.
  revert result d.
  induction A as [|pa A IH]; intros result d Hd.
  { exists d. split_and!; [done|done|apply grows_refl|].
    by intros ? ? ? ? ?%elem_of_nil. }
  rewrite for_fold_cons. unfold gaps. rewrite bind_cons.
  destruct (topic_b_loop pa B result d d0 Hd) as (d1 & -> & Hd1 & Hg1 & Ht1).
  destruct (add_terms result (pb ← B; pair_gaps d0 pa pb)) as [result'|e] eqn:Hfirst.
  - destruct (IH result' d1 Hd1) as (d' & -> & Hd' & Hg' & Htouch).
    exists d'. rewrite add_terms_app, Hfirst.
    split_and!; [done|done|by eapply grows_trans|].
    intros r Hr pa' pb' [->|Hin]%elem_of_cons Hb Hne'.
    + destruct (Ht1 result' eq_refl pb' Hb Hne'). split; by apply Hg'.
    + by apply (Htouch r Hr pa' pb').
  - exists d1. rewrite add_terms_app, Hfirst. by split_and!.
Qed.

Lemma calc_distance_run A B d :
  exists d',
    calc_distance A B d = (d', add_terms 0%float (gaps d A B)) /\
    same_occ d' d /\ grows d d' /\
    (forall r, add_terms 0%float (gaps d A B) = Ok r ->
       forall pa pb, pa ∈ A -> pb ∈ B -> pa <> pb ->
                     pa ∈ dict_keys d' /\ pb ∈ dict_keys d').
Proof. by apply (topic_a_loop A B 0%float d d). Qed.

Lemma calc_distance_gaps A B d :
  (calc_distance A B d).2 = add_terms 0%float (gaps d A B).
Proof. by destruct (calc_distance_run A B d) as (d' & -> & _). Qed.

(** ** Division by zero *)

Lemma true_div_1_raise t :
  (t = 0 -> true_div_1 t = Raise ZeroDivisionError) /\
  (t <> 0 -> exists q, true_div_1 t = Ok q).
Proof. unfold true_div_1. case_decide; split; intros; eauto; done. Qed.

Lemma add_terms_raise result ts :
  (0 ∈ ts -> add_terms result ts = Raise ZeroDivisionError) /\
  (0 ∉ ts -> exists r, add_terms result ts = Ok r).
Proof.
  revert result. induction ts as [|t ts IH]; intros result; simpl.
  - split; [by intros ?%elem_of_nil|eauto].
  - destruct (true_div_1_raise t) as [H0 Hn].
    destruct (decide (t = 0)) as [->|Ht].
    + rewrite H0 by done. split; [done|]. intros []. left.
    + destruct (Hn Ht) as [q ->]. destruct (IH (result + q)%float) as [IH0 IHn].
      split.
      * intros [?|?]%elem_of_cons; [done|auto].
      * intros Hnot. apply IHn. intros ?. apply Hnot. by right.
Qed.

Lemma elem_of_product {A B} (a : A) (b : B) l1 l2 :
  (a, b) ∈ product l1 l2 <-> a ∈ l1 /\ b ∈ l2.
Proof.
  unfold product. rewrite list_elem_of_bind. split.
  - intros (a' & Hin & Ha). apply list_elem_of_fmap in Hin as (b' & [= -> ->] & Hb).
    done.
  - intros [Ha Hb]. exists a. split; [|done].
    apply list_elem_of_fmap. by exists b.
Qed.

Lemma gap_zero a b : gap (a, b) = 0 <-> a = b.
Proof. unfold gap. simpl. lia. Qed.

Lemma zero_gap_shares_index d A B : 0 ∈ gaps d A B <-> shares_index d A B.
Proof.
  unfold gaps, shares_index. rewrite list_elem_of_bind. split.
  - intros (pa & Hin & Ha). apply list_elem_of_bind in Hin as (pb & Hin & Hb).
    unfold pair_gaps in Hin. case_decide as Hne; [|by apply elem_of_nil in Hin].
    apply list_elem_of_fmap in Hin as ([a b] & Hz & Hab).
    symmetry in Hz. apply gap_zero in Hz as ->.
    apply elem_of_product in Hab as [? ?]. by exists pa, pb, b.
  - intros (pa & pb & i & Ha & Hb & Hne & Hia & Hib).
    exists pa. split; [|done]. apply list_elem_of_bind. exists pb. split; [|done].
    unfold pair_gaps. rewrite decide_True by done.
    apply list_elem_of_fmap. exists (i, i). split; [symmetry; by apply gap_zero|].
    by apply elem_of_product.
Qed.

(** ** Symmetry of the terms *)

Lemma bind_nil_r {A B} (l : list A) : (l ≫= fun _ => @nil B) = [].
Proof. induction l as [|x l IH]; [done|]. rewrite bind_cons. apply IH. Qed.

Lemma bind_app_pointwise {A B} (g h : A -> list B) l :
  (x ← l; g x ++ h x) ≡ₚ (l ≫= g) ++ (l ≫= h).
Proof.
  induction l as [|x l IH]; [done|].
  rewrite !bind_cons, IH, <-!(assoc_L (++)). apply Permutation_app_head.
  rewrite !(assoc_L (++)). apply Permutation_app_tail, Permutation_app_comm.
Qed.

Lemma bind_swap {A B C} (f : A -> B -> list C) l1 l2 :
  (a ← l1; b ← l2; f a b) ≡ₚ (b ← l2; a ← l1; f a b).
Proof.
  induction l1 as [|a l1 IH].
  - change ([] ≡ₚ l2 ≫= fun _ => @nil C). by rewrite bind_nil_r.
  - rewrite bind_cons, IH. symmetry. apply bind_app_pointwise.
Qed.

Lemma bind_Permutation_pointwise {A B} (f g : A -> list B) l :
  (forall x, f x ≡ₚ g x) -> (l ≫= f) ≡ₚ (l ≫= g).
Proof.
  intros Hfg. induction l as [|x l IH]; [done|].
  rewrite !bind_cons. by rewrite IH, Hfg.
Qed.

Lemma gap_product l1 l2 :
  gap <$> product l1 l2 = a ← l1; b ← l2; [gap (a, b)].
Proof.
  unfold product. induction l1 as [|a l1 IH]; [done|].
  rewrite !bind_cons, fmap_app, IH. f_equal.
  clear IH. induction l2 as [|b l2 IH2]; [done|].
  rewrite bind_cons, !fmap_cons, IH2. done.
Qed.

Lemma gap_sym a b : gap (a, b) = gap (b, a).
Proof. unfold gap. simpl. lia. Qed.

Lemma pair_gaps_sym d pa pb : pair_gaps d pa pb ≡ₚ pair_gaps d pb pa.
Proof.
  unfold pair_gaps. destruct (decide (pa <> pb)) as [Hne|Heq].
  - rewrite decide_True by done. rewrite !gap_product, bind_swap.
    apply bind_Permutation_pointwise. intros b.
    apply bind_Permutation_pointwise. intros a. by rewrite gap_sym.
  - rewrite decide_False; [done|]. intros Hne. apply Heq. done.
Qed.

Lemma gaps_sym d A B : gaps d A B ≡ₚ gaps d B A.
Proof.
  unfold gaps. rewrite bind_swap.
  apply bind_Permutation_pointwise. intros pb.
  apply bind_Permutation_pointwise. intros pa. apply pair_gaps_sym.
Qed.

(** ** Members that are not keys *)

Lemma product_nil_r {A B} (l : list A) : product l (@nil B) = [].
Proof. unfold product. apply bind_nil_r. Qed.

Lemma pair_gaps_empty_l d m pb : occ d m = [] -> pair_gaps d m pb = [].
Proof. intros Hm. unfold pair_gaps. rewrite Hm. by case_decide. Qed.

Lemma pair_gaps_empty_r d pa m : occ d m = [] -> pair_gaps d pa m = [].
Proof.
  intros Hm. unfold pair_gaps. rewrite Hm, product_nil_r. by case_decide.
Qed.

Lemma gaps_filter d A B m :
  occ d m = [] ->
  gaps d A B = gaps d (filter (fun k => k <> m) A) (filter (fun k => k <> m) B).
Proof.
  intros Hm. unfold gaps.
  assert (Hinner : forall pa,
    (pb ← B; pair_gaps d pa pb) =
    (pb ← filter (fun k => k <> m) B; pair_gaps d pa pb)).
  { intros pa. induction B as [|pb B IH]; [done|].
    rewrite bind_cons, IH.
    destruct (decide (pb = m)) as [->|Hne].
    - rewrite filter_cons_False by (intros ?; done).
      by rewrite pair_gaps_empty_r.
    - rewrite filter_cons_True by done. by rewrite bind_cons. }
  induction A as [|pa A IH]; [done|].
  rewrite bind_cons, IH, Hinner.
  destruct (decide (pa = m)) as [->|Hne].
  - rewrite filter_cons_False by (intros ?; done).
    assert (Hnil : (pb ← filter (fun k => k <> m) B; pair_gaps d m pb) = []).
    { clear IH Hinner. induction (filter _ B) as [|pb B' IHB]; [done|].
      by rewrite bind_cons, IHB, pair_gaps_empty_l. }
    by rewrite Hnil.
  - rewrite filter_cons_True by done. by rewrite bind_cons.
Qed.

Lemma occ_None d m : dict_get m d = None -> occ d m = [].
Proof. unfold occ. by intros ->. Qed.

(** ** Segments and the phrase map *)

Lemma enumerate_elem {A} (l : list A) i x :
  (i, x) ∈ enumerate l <-> l !! i = Some x.
Proof.
  unfold enumerate. rewrite elem_of_lookup_zip_with. split.
  - intros (j & a & b & [= -> ->] & Hseq & Hl).
    by apply lookup_seq in Hseq as [-> _].
  - intros Hl. exists i, i, x. split_and!; [done| |done].
    apply lookup_seq. split; [done|]. by eapply lookup_lt_Some.
Qed.

Lemma same_segment_indices_elem phrase ps i :
  i ∈ same_segment_indices phrase ps <-> ps !! i = Some phrase.
Proof.
  unfold same_segment_indices. rewrite list_elem_of_fmap. split.
  - intros ([j q] & -> & [Hq Hin]%list_elem_of_filter). simpl in *. subst q.
    by apply enumerate_elem.
  - intros Hl. exists (i, phrase). split; [done|].
    apply list_elem_of_filter. split; [done|]. by apply enumerate_elem.
Qed.

Lemma record_segments_recorded ps qs d :
  (forall q, q ∈ qs -> q ∈ ps) ->
  (forall k v, dict_get k d = Some v -> recorded ps k v) ->
  forall k v,
    dict_get k
      (fold_left
         (fun d phrase =>
            match phrase with
            | [] => d
            | _ :: _ => dict_set (phrase_key phrase) (same_segment_indices phrase ps) d
            end) qs d) = Some v ->
    recorded ps k v.
Proof.
  revert d. induction qs as [|q qs IH]; intros d Hqs Hd; [exact Hd|].
  simpl. apply IH; [intros q' Hq'; apply Hqs; by right|].
  destruct q as [|w q]; [exact Hd|].
  intros k v. rewrite dict_get_set. case_decide as Hk; [|apply Hd].
  intros [= <-]. exists (w :: q). split_and!; [done|apply Hqs; left|done..].
Qed.

Lemma extract_phrases_recorded E X n k v :
  dict_get k (phrases (_extract_phrases E (fit X (__init__ n)))) = Some v ->
  recorded (segments (scan_text E (fit X (__init__ n)))) k v.
Proof.
  unfold _extract_phrases. simpl. apply record_segments_recorded; [done|].
  intros k' v'. simpl. done.
Qed.

Lemma recorded_occurrence ps k v i :
  recorded ps k v -> i ∈ v ->
  exists phrase, ps !! i = Some phrase /\ phrase <> [] /\ phrase_key phrase = k.
Proof.
  intros (phrase & Hne & _ & -> & ->) Hi%same_segment_indices_elem. eauto.
Qed.

(** On a new instance the occurrence lists hold occurrences of their
    key only, none is empty, and no index is in the lists of two keys. *)
Lemma extract_phrases_sound E X n k v i :
  dict_get k (phrases (_extract_phrases E (fit X (__init__ n)))) = Some v ->
  i ∈ v ->
  i ∈ segment_indices_of_key k (segments (scan_text E (fit X (__init__ n)))).
Proof.
  intros Hk%extract_phrases_recorded Hi.
  destruct (recorded_occurrence _ _ _ _ Hk Hi) as (phrase & Hl & Hne & Hkey).
  unfold segment_indices_of_key. apply list_elem_of_fmap.
  exists (i, phrase). split; [done|]. apply list_elem_of_filter.
  split; [done|]. by apply enumerate_elem.
Qed.

Lemma extract_phrases_all_occupied E X n :
  all_occupied (phrases (_extract_phrases E (fit X (__init__ n)))).
Proof.
  intros k v (phrase & Hne & Hin & -> & ->)%extract_phrases_recorded Hnil.
  apply list_elem_of_lookup in Hin as [i Hi].
  apply same_segment_indices_elem in Hi. rewrite Hnil in Hi.
  by apply elem_of_nil in Hi.
Qed.

Lemma occ_elem d k i : i ∈ occ d k -> exists v, dict_get k d = Some v /\ i ∈ v.
Proof.
  unfold occ. destruct (dict_get k d) as [v|]; simpl; [eauto|].
  by intros ?%elem_of_nil.
Qed.

Lemma extract_phrases_disjoint E X n A B :
  ~ shares_index (phrases (_extract_phrases E (fit X (__init__ n)))) A B.
Proof.
  intros (pa & pb & i & _ & _ & Hne & Ha & Hb).
  apply occ_elem in Ha as (va & Ha%extract_phrases_recorded & Hia).
  apply occ_elem in Hb as (vb & Hb%extract_phrases_recorded & Hib).
  destruct (recorded_occurrence _ _ _ _ Ha Hia) as (p1 & Hl1 & _ & <-).
  destruct (recorded_occurrence _ _ _ _ Hb Hib) as (p2 & Hl2 & _ & <-).
  rewrite Hl1 in Hl2. injection Hl2 as ->. done.
Qed.

Lemma exact_sum_Permutation ts ts' :
  ts ≡ₚ ts' -> Qeq (exact_sum ts) (exact_sum ts').
Proof.
  induction 1 as [|t ts ts' _ IH|t1 t2 ts|ts1 ts2 ts3 _ IH1 _ IH2]; simpl.
  - reflexivity.
  - by rewrite IH.
  - ring.
  - by rewrite IH1.
Qed.

(** ** The three claims about [calc_distance] *)

(** C7, as the code has it: [calc_distance] has no guard against equal
    positions.  It raises [ZeroDivisionError] exactly when two distinct
    keys, one of each group, have an occurrence index in common, and
    returns a number exactly when no two such keys have.  On the phrase
    map that [_extract_phrases] builds on a new instance no two keys have,
    so there it returns. *)
Theorem calc_distance_zero_division d A B :
  ((calc_distance A B d).2 = Raise ZeroDivisionError <-> shares_index d A B) /\
  ((exists r, (calc_distance A B d).2 = Ok r) <-> ~ shares_index d A B) /\
  (forall E X n, exists r,
     (calc_distance A B (phrases (_extract_phrases E (fit X (__init__ n))))).2
     = Ok r).
Proof.
  assert (Hcases : forall d,
    ((calc_distance A B d).2 = Raise ZeroDivisionError <-> shares_index d A B) /\
    ((exists r, (calc_distance A B d).2 = Ok r) <-> ~ shares_index d A B)).
  { clear d. intros d. rewrite calc_distance_gaps, <-zero_gap_shares_index.
    destruct (add_terms_raise 0%float (gaps d A B)) as [H0 Hn].
    destruct (decide (0 ∈ gaps d A B)) as [Hz|Hz].
    - rewrite (H0 Hz). split; [done|]. split; [by intros [? ?]|done].
    - destruct (Hn Hz) as [r ->]. split; [done|]. split; [done|eauto]. }
  destruct (Hcases d) as [Hraise Hok]. split_and!; [done..|].
  intros E X n. apply Hcases, extract_phrases_disjoint.
Qed.

(** C7 as stated fails: two keys recorded at the same index make
    [calc_distance] raise [ZeroDivisionError]. *)
Lemma calc_distance_unguarded :
  (calc_distance ["fox"] ["dog"] [("fox", [0%nat]); ("dog", [0%nat])]).2
  = Raise ZeroDivisionError.
Proof. vm_compute. reflexivity. Qed.

(** C8, as the code has it: [calc_distance(A, B)] and
    [calc_distance(B, A)] add up the same terms, one sequence being a
    permutation of the other, so that the two sums are equal in exact
    arithmetic; each call adds from the left in floating point, and one
    raises [ZeroDivisionError] exactly when the other does. *)
Theorem calc_distance_same_terms d A B :
  gaps d A B ≡ₚ gaps d B A /\
  Qeq (exact_sum (gaps d A B)) (exact_sum (gaps d B A)) /\
  (calc_distance A B d).2 = add_terms 0%float (gaps d A B) /\
  (calc_distance B A d).2 = add_terms 0%float (gaps d B A) /\
  ((calc_distance A B d).2 = Raise ZeroDivisionError <->
   (calc_distance B A d).2 = Raise ZeroDivisionError).
Proof.
  split_and!; [apply gaps_sym|apply exact_sum_Permutation, gaps_sym
              |apply calc_distance_gaps..|].
  rewrite !calc_distance_gaps.
  destruct (add_terms_raise 0%float (gaps d A B)) as [Hab Hab'].
  destruct (add_terms_raise 0%float (gaps d B A)) as [Hba Hba'].
  assert (Hz : 0 ∈ gaps d A B <-> 0 ∈ gaps d B A) by by rewrite gaps_sym.
  destruct (decide (0 ∈ gaps d A B)) as [H|H].
  - by rewrite Hab, Hba by tauto.
  - destruct Hab' as [r ->]; [done|]. destruct Hba' as [r' ->]; [tauto|]. done.
Qed.

(** C8 as stated fails: in "fox and dog and fox and dog" one key is at
    segments 0 and 2 and the other at segments 1 and 3; the four terms
    1, 1/3, 1, 1 are added in two different orders, and the two sums
    differ in the last bit. *)
Lemma calc_distance_asymmetric :
  let E := Fixture.externals false in
  let X := ["fox"; "and"; "dog"; "and"; "fox"; "and"; "dog"] in
  let d := phrases (_extract_phrases E (fit X (__init__ 10))) in
  exists x y,
    d = [("fox", [0; 2]); ("dog", [1; 3])]%nat /\
    (calc_distance ["fox"] ["dog"] d).2 = Ok x /\
    (calc_distance ["dog"] ["fox"] d).2 = Ok y /\
    PrimFloat.eqb x y = false /\
    x = 0x1.aaaaaaaaaaaaap+1%float /\ y = 0x1.aaaaaaaaaaaabp+1%float.
Proof. vm_compute. eexists _, _. split_and!; reflexivity. Qed.

(** C10: a lookup of a string [m] that is not a key does not raise; it
    yields the empty list and inserts [m] with it.  Pairs with [m]
    contribute nothing, so the distance is the one of the groups without
    [m]; and after a call that paired [m] with another key, [m] is a key
    with an empty occurrence list. *)
Theorem calc_distance_missing_member d A B m d' r :
  dict_get m d = None ->
  (m ∈ A /\ exists b, b ∈ B /\ b <> m) \/ (m ∈ B /\ exists a, a ∈ A /\ a <> m) ->
  calc_distance A B d = (d', Ok r) ->
  getitem m d = (dict_set m [] d, Ok []) /\
  (calc_distance (filter (fun k => k <> m) A) (filter (fun k => k <> m) B) d).2
    = Ok r /\
  dict_get m d' = Some [] /\
  ~ all_occupied d'.
Proof.
  intros Hm Hpair Hrun.
  destruct (calc_distance_run A B d) as (d1 & Hrun1 & Hocc & Hgrow & Htouch).
  rewrite Hrun in Hrun1. injection Hrun1 as <- Hr.
  assert (Hkey : dict_get m d' = Some []).
  { assert (Hin : m ∈ dict_keys d').
    { destruct Hpair as [[Ha (b & Hb & Hne)]|[Hb (a & Ha & Hne)]].
      - by apply (Htouch r (eq_sym Hr) m b).
      - by apply (Htouch r (eq_sym Hr) a m). }
    apply dict_get_keys in Hin as [v Hv].
    pose proof (Hocc m) as Hom. unfold occ in Hom. rewrite Hv, Hm in Hom.
    simpl in Hom. by subst v. }
  split_and!.
  - unfold getitem, defaultdict_getitem. by rewrite Hm.
  - rewrite calc_distance_gaps, <-gaps_filter by by apply occ_None. done.
  - done.
  - intros Hall. by apply (Hall m []).
Qed.

Lemma calc_distance_missing_member_witness :
  let d := [("fox fox", [0]); ("dog", [1])]%nat in
  let d' := d ++ [("fox", [])] in
  getitem "fox" d = (dict_set "fox" [] d, Ok []) /\
  (calc_distance (filter (fun k => k <> "fox") ["fox"])
                 (filter (fun k => k <> "fox") ["dog"]) d).2 = Ok 0%float /\
  dict_get "fox" d' = Some [] /\
  ~ all_occupied d'.
Proof.
  intros d d'.
  apply (calc_distance_missing_member d ["fox"] ["dog"] "fox" d' 0%float).
  - reflexivity.
  - left. split; [left|]. exists "dog". split; [left|done].
  - vm_compute. reflexivity.
Defined.

(** Such members arise in [predict]: the segment "fox fox" has the key
    "fox fox", which [CountVectorizer] turns into the member "fox"; the
    call looks it up and leaves it in the phrase map with no occurrence. *)
Example reconstructed_member_enters_the_map :
  let run := predict (Fixture.externals false) ["fox"; "fox"; "and"; "dog"]
               "average" 1.25%float "first" (__init__ 10) in
  phrases run.1 = [("fox fox", [0%nat]); ("dog", [1%nat]); ("fox", [])] /\
  run.2 = Ok ["fox"; "dog"].
Proof. vm_compute. split; reflexivity. Qed.

(** ** [_extract_phrases] *)

Lemma scan_token_skip E tags st token :
  in_tag_set tags (pos_of E token) = false ->
  default [] (last (segments st)) = [] ->
  scan_token E tags st token =
  {| segments := segments st; positions := positions st;
     counter := S (counter st); unstem := unstem st |}.
Proof. intros Hpos Hlast. unfold scan_token. by rewrite Hpos, Hlast. Qed.

Lemma scan_skip_all E tags X st :
  (forall token, token ∈ X -> in_tag_set tags (pos_of E token) = false) ->
  default [] (last (segments st)) = [] ->
  segments (fold_left (scan_token E tags) X st) = segments st /\
  unstem (fold_left (scan_token E tags) X st) = unstem st.
Proof.
  revert st. induction X as [|token X IH]; intros st Hall Hlast; [done|].
  simpl. rewrite scan_token_skip; [|apply Hall; left|done].
  destruct (IH {| segments := segments st; positions := positions st;
                  counter := S (counter st); unstem := unstem st |})
    as [-> ->]; [|done..].
  intros t Ht. apply Hall. by right.
Qed.

(** C2 fails on the code: on a newly constructed extractor a document
    without content-tagged tokens leaves the phrase map empty, and
    [CountVectorizer] refuses the empty list of keys, so [predict] raises
    [ValueError] instead of returning the empty list. *)
Theorem predict_no_content_tokens E X cluster_strategy max_d extract_strategy n :
  (forall token, token ∈ X ->
     in_tag_set default_tag_set (pos_of E token) = false) ->
  (predict E X cluster_strategy max_d extract_strategy (__init__ n)).2
  = Raise ValueError.
Proof.
  intros Hall. unfold predict, _identify_topics, _extract_phrases, scan_text.
  simpl.
  destruct (scan_skip_all E default_tag_set X
              {| segments := [[]]; positions := []; counter := 0;
                 unstem := ∅ |} Hall eq_refl) as [Hseg _].
  simpl in Hseg. unfold __init__ at 1. simpl. rewrite Hseg. reflexivity.
Qed.

Lemma predict_no_content_tokens_witness :
  (predict (Fixture.externals false) ["and"; "."] "average" 1.25%float "first"
     (__init__ 10)).2 = Raise ValueError.
Proof.
  apply predict_no_content_tokens.
  intros token Hin.
  repeat (apply elem_of_cons in Hin as [->|Hin]; [vm_compute; reflexivity|]).
  by apply elem_of_nil in Hin.
Defined.

(** C6 fails on the code: the second loop keys the map by the sorted
    words but collects the indices of the segments equal to the segment as
    written, and a later segment with the same key overwrites the entry.
    For "red fox and fox red" the key "fox red" occurs at segments 0 and 1,
    and the map records only 1. *)
Theorem extract_phrases_loses_reordered_occurrence :
  let E := Fixture.externals false in
  let self := fit ["red"; "fox"; "and"; "fox"; "red"] (__init__ 10) in
  segments (scan_text E self) = [["red"; "fox"]; ["fox"; "red"]] /\
  segment_indices_of_key "fox red" (segments (scan_text E self)) = [0; 1]%nat /\
  phrases (_extract_phrases E self) = [("fox red", [1%nat])].
Proof. vm_compute. split_and!; reflexivity. Qed.

(** ** What a call leaves of the instance *)

Lemma for_fold_state_rel {S A B} (R : S -> S -> Prop) xs acc
    (body : B -> A -> M S B) s :
  (forall s, R s s) ->
  (forall s1 s2 s3, R s1 s2 -> R s2 s3 -> R s1 s3) ->
  (forall acc x s, R s (body acc x s).1) ->
  R s (for_fold xs acc body s).1.
Proof.
  intros Hrefl Htrans Hbody. revert acc s.
  induction xs as [|x xs IH]; intros acc s; [apply Hrefl|].
  rewrite for_fold_cons. pose proof (Hbody acc x s) as Hstep.
  destruct (body acc x s) as [s1 [acc1|e]]; simpl in Hstep; [|done].
  eapply Htrans; [exact Hstep|apply IH].
Qed.

Lemma calc_distance_grows A B d : grows d (calc_distance A B d).1.
Proof. by destruct (calc_distance_run A B d) as (d' & -> & _ & Hg & _). Qed.

Lemma weighted_edges_grows tcs d : grows d (weighted_edges tcs d).1.
Proof.
  unfold weighted_edges.
  apply (for_fold_state_rel grows); [apply grows_refl|apply grows_trans|].
  intros edges v d1.
  apply (for_fold_state_rel grows); [apply grows_refl|apply grows_trans|].
  intros edges' u d2. destruct (frozenset_eqb u v); [apply grows_refl|].
  unfold bind. pose proof (calc_distance_grows v u d2) as Hg.
  by destruct (calc_distance v u d2) as [d3 [w|e]].
Qed.

Lemma _identify_topics_frame E strategy max_d self :
  let self' := (_identify_topics E strategy max_d self).1 in
  n_keywords self' = n_keywords self /\
  tag_set self' = tag_set self /\
  unstem_map self' = unstem_map self /\
  text self' = text self /\
  grows (phrases self) (phrases self').
Proof.
  unfold _identify_topics.
  destruct (identify_clusters _ _ _ _) as [cluster_values|e]; simpl;
    [|by split_and!; try apply grows_refl].
  unfold on_phrases.
  pose proof (weighted_edges_grows (map (frozenset_iter E) cluster_values)
                (phrases self)) as Hg.
  destruct (weighted_edges _ (phrases self)) as [d [edges|e]]; simpl in *;
    [|by split_and!].
  destruct (pagerank E _ _); simpl; by split_and!.
Qed.

Lemma dict_set_grows {V} k (v : V) d : grows d (dict_set k v d).
Proof. intros k'. apply dict_keys_set. Qed.

Lemma record_segments_grows ps ps' d : grows d
  (fold_left
     (fun d phrase =>
        match phrase with
        | [] => d
        | _ :: _ => dict_set (phrase_key phrase) (same_segment_indices phrase ps') d
        end) ps d).
Proof.
  revert d. induction ps as [|phrase ps IH]; intros d; [apply grows_refl|].
  simpl. eapply grows_trans; [|apply IH].
  destruct phrase; [apply grows_refl|apply dict_set_grows].
Qed.

Lemma scan_token_unstem E tags st token :
  dom (unstem st) ⊆ dom (unstem (scan_token E tags st token)).
Proof.
  unfold scan_token.
  repeat (case_match; simpl); try done; rewrite dom_insert; set_solver.
Qed.

Lemma scan_unstem E tags X st :
  dom (unstem st) ⊆ dom (unstem (fold_left (scan_token E tags) X st)).
Proof.
  revert st. induction X as [|token X IH]; intros st; [done|].
  simpl. etrans; [apply (scan_token_unstem E tags st token)|apply IH].
Qed.

(** ** The selection loop of [predict] *)

Lemma selection_loop (m : gmap string (nat * string))
    (ts : list (float * list string)) (result : list string)
    (self : TopicalPagerank) :
  exists out,
    for_fold ts result
      (fun result rank_topic =>
         match first_kp rank_topic.2 with
         | None => ret result
         | Some kp =>
             let* s := lift (unstem_kp m kp) in
             ret (result ++ [s])
         end) self = (self, out) /\
    forall r, out = Ok r -> (length r <= length result + length ts)%nat.
Proof.
  revert result. induction ts as [|[rank topic] ts IH]; intros result.
  { exists (Ok result). split; [done|]. intros r [= <-]. simpl. lia. }
  rewrite for_fold_cons. cbn [snd].
  destruct (first_kp topic) as [kp|].
  - unfold bind at 1, lift at 1. destruct (unstem_kp m kp) as [s|e].
    + destruct (IH (result ++ [s])) as (out & Hrun & Hlen). exists out.
      split; [exact Hrun|]. intros r Hr. specialize (Hlen r Hr).
      rewrite length_app in Hlen. simpl in *. lia.
    + by exists (Raise e).
  - destruct (IH result) as (out & Hrun & Hlen). exists out.
    split; [exact Hrun|]. intros r Hr. specialize (Hlen r Hr). simpl. lia.
Qed.

Lemma slice_to_length {A} (n : Z) (l : list A) :
  0 <= n -> (length (slice_to n l) <= Z.to_nat n)%nat.
Proof.
  intros Hn. unfold slice_to.
  destruct (0 <=? n) eqn:Hle; [|lia]. rewrite length_take. lia.
Qed.

(** C9: when [n_keywords] is not negative and [predict] returns, it
    returns at most [n_keywords] keyphrases. *)
Theorem predict_length E X cluster_strategy max_d extract_strategy self self' r :
  0 <= n_keywords self ->
  predict E X cluster_strategy max_d extract_strategy self = (self', Ok r) ->
  Z.of_nat (length r) <= n_keywords self.
Proof.
  intros Hn. unfold predict.
  pose proof (_identify_topics_frame E cluster_strategy max_d
                (_extract_phrases E (fit X self))) as (Hk & _).
  destruct (_identify_topics _ _ _ _) as [self1 [[]|e]]; [|done].
  simpl in Hk.
  destruct (selection_loop (unstem_map self1)
              (slice_to (n_keywords self1) (topics self1)) [] self1)
    as (out & -> & Hlen).
  intros [= <- ->]. specialize (Hlen r eq_refl).
  pose proof (slice_to_length (n_keywords self1) (topics self1)) as Hs.
  rewrite Hk in *. simpl in *. lia.
Qed.

Lemma predict_length_witness :
  let run := predict (Fixture.externals false) ["fox"; "and"; "dog"]
               "average" 1.25%float "first" (__init__ 1) in
  run.2 = Ok ["fox"] /\ Z.of_nat (length ["fox"]) <= 1.
Proof.
  intros run. split; [vm_compute; reflexivity|].
  apply (predict_length (Fixture.externals false) ["fox"; "and"; "dog"]
           "average" 1.25%float "first" (__init__ 1) run.1 ["fox"]).
  - vm_compute. discriminate.
  - vm_compute. reflexivity.
Defined.

(** ** One phrase key *)

Lemma defaultdict_append_empty {K V} `{EqDecision K} (k : K) (x : V) :
  defaultdict_append k x [] = [(k, [x])].
Proof.
  unfold defaultdict_append, defaultdict_getitem. simpl.
  by rewrite decide_True.
Qed.

Lemma identify_clusters_single E strategy max_d k cluster_values :
  identify_clusters E strategy max_d [k] = Ok cluster_values ->
  cluster_values = [] \/ exists members, cluster_values = [members].
Proof.
  unfold identify_clusters, fit_transform. simpl.
  destruct (sorted String.ltb _) as [|term vocabulary]; [done|].
  destruct (linkage E _ strategy) as [link|]; [|done].
  destruct (cophenet E link _) as [c|]; [|done].
  destruct (fcluster E link max_d) as [[|a [|b clusters]]|]; simpl; try done.
  - intros [= <-]. by left.
  - rewrite defaultdict_append_empty. intros [= <-]. right. eauto.
Qed.

Lemma frozenset_eqb_refl v : frozenset_eqb v v = true.
Proof. unfold frozenset_eqb. by apply bool_decide_eq_true. Qed.

Lemma weighted_edges_single v d : weighted_edges [v] d = (d, Ok []).
Proof.
  unfold weighted_edges. rewrite for_fold_cons, for_fold_cons.
  by rewrite frozenset_eqb_refl.
Qed.

Lemma _identify_topics_single E strategy max_d self k :
  dict_keys (phrases self) = [k] ->
  (exists self' e, _identify_topics E strategy max_d self = (self', Raise e)) \/
  (exists self', _identify_topics E strategy max_d self = (self', Ok tt) /\
                 topics self' = []).
Proof.
  intros Hk. unfold _identify_topics. rewrite Hk.
  destruct (identify_clusters E strategy max_d [k]) as [cluster_values|e] eqn:Hc;
    [|left; eauto].
  apply identify_clusters_single in Hc as [->|[members ->]]; simpl;
    unfold on_phrases.
  - change (weighted_edges [] (phrases self)) with (phrases self, Ok (@nil (list string * list string * float))).
    simpl. destruct (pagerank E _ _); [right|left]; eauto.
  - rewrite weighted_edges_single. simpl.
    destruct (pagerank E _ _); [right|left]; eauto.
Qed.

(** C1 fails on the code: with a single phrase key there is at most one
    cluster, so no edge is added and the graph has no node.  Whatever the
    libraries answer, [predict] raises or returns the empty list; it never
    returns the phrase. *)
Theorem predict_single_phrase E X cluster_strategy max_d extract_strategy self k :
  dict_keys (phrases (_extract_phrases E (fit X self))) = [k] ->
  (exists e,
     (predict E X cluster_strategy max_d extract_strategy self).2 = Raise e) \/
  (predict E X cluster_strategy max_d extract_strategy self).2 = Ok [].
Proof.
  intros Hk. unfold predict.
  destruct (_identify_topics_single E cluster_strategy max_d _ k Hk)
    as [(self' & e & ->)|(self' & -> & Htopics)].
  - left. by exists e.
  - right. rewrite Htopics. unfold slice_to.
    destruct (0 <=? _); by rewrite take_nil.
Qed.

Lemma predict_single_phrase_witness :
  let E := Fixture.externals false in
  dict_keys (phrases (_extract_phrases E (fit ["fox"] (__init__ 10)))) = ["fox"] /\
  ((exists e, (predict E ["fox"] "average" 1.25%float "first" (__init__ 10)).2
              = Raise e) \/
   (predict E ["fox"] "average" 1.25%float "first" (__init__ 10)).2 = Ok []).
Proof.
  intros E. split; [vm_compute; reflexivity|].
  apply (predict_single_phrase E ["fox"] "average" 1.25%float "first"
           (__init__ 10) "fox").
  vm_compute. reflexivity.
Defined.

(** With scipy, which does not link a single observation, the call
    raises. *)
Example single_observation_is_refused :
  Fixture.run false 10 ["fox"] = Raise ValueError.
Proof. vm_compute. reflexivity. Qed.

(** ** State across calls *)

Lemma predict_state E X cluster_strategy max_d extract_strategy self :
  (predict E X cluster_strategy max_d extract_strategy self).1 =
  (_identify_topics E cluster_strategy max_d (_extract_phrases E (fit X self))).1.
Proof.
  unfold predict.
  destruct (_identify_topics _ _ _ _) as [self1 [[]|e]]; [|done].
  by destruct (selection_loop (unstem_map self1)
                 (slice_to (n_keywords self1) (topics self1)) [] self1)
    as (out & -> & _).
Qed.

Lemma _identify_topics_old_topics E strategy max_d ts self :
  _identify_topics E strategy max_d (set_topics ts self) =
  match _identify_topics E strategy max_d self with
  | (self', Ok u) => (self', Ok u)
  | (self', Raise e) => (set_topics ts self', Raise e)
  end.
Proof.
  unfold _identify_topics. simpl.
  destruct (identify_clusters _ _ _ _) as [cluster_values|e]; [|done].
  unfold on_phrases. simpl.
  destruct (weighted_edges _ (phrases self)) as [d [edges|e]]; [|done].
  by destruct (pagerank E _ _).
Qed.

(** What a call keeps: [predict] replaces [self.text], and
    [self.topics] whenever ranking succeeds, and its result does not depend
    on what they held before; but the phrase map and the surface-form map
    are created by the constructor only, and every key they had before a
    call they still have after it. *)
Theorem predict_carries_maps E X cluster_strategy max_d extract_strategy self :
  let self' := (predict E X cluster_strategy max_d extract_strategy self).1 in
  grows (phrases self) (phrases self') /\
  dom (unstem_map self) ⊆ dom (unstem_map self') /\
  text self' = X /\
  forall X0 ts,
    (predict E X cluster_strategy max_d extract_strategy
       (set_topics ts (set_text X0 self))).2 =
    (predict E X cluster_strategy max_d extract_strategy self).2.
Proof.
  cbv zeta. rewrite predict_state.
  pose proof (_identify_topics_frame E cluster_strategy max_d
                (_extract_phrases E (fit X self))) as (_ & _ & Hu & Ht & Hg).
  split_and!.
  - eapply grows_trans; [|exact Hg]. apply record_segments_grows.
  - rewrite Hu.
    apply (scan_unstem E (tag_set self) X
             {| segments := [[]]; positions := []; counter := 0;
                unstem := unstem_map self |}).
  - by rewrite Ht.
  - intros X0 ts. unfold predict.
    change (_extract_phrases E (fit X (set_topics ts (set_text X0 self))))
      with (set_topics ts (_extract_phrases E (fit X self))).
    rewrite _identify_topics_old_topics.
    by destruct (_identify_topics _ _ _ _) as [self1 [[]|e]].
Qed.

(** C5 fails on the code: [self.phrases] and [self.unstem_map] are not
    built per call.  After a call on "fox and dog" the phrase map still
    holds that document's keys; a second call on "cat and owl" adds its
    own keys to them, finds "fox" and "cat" both at segment 0, and raises
    [ZeroDivisionError], where the same call on a new instance returns
    two keyphrases. *)
Theorem second_call_sees_first_document :
  let E := Fixture.externals false in
  let call X := predict E X "average" 1.25%float "first" in
  let first := (call ["fox"; "and"; "dog"] (__init__ 10)).1 in
  phrases first = [("fox", [0%nat]); ("dog", [1%nat])] /\
  phrases (_extract_phrases E (fit ["cat"; "and"; "owl"] first))
    = [("fox", [0%nat]); ("dog", [1%nat]); ("cat", [0%nat]); ("owl", [1%nat])] /\
  (call ["cat"; "and"; "owl"] first).2 = Raise ZeroDivisionError /\
  (call ["cat"; "and"; "owl"] (__init__ 10)).2 = Ok ["owl"; "cat"].
Proof. vm_compute. split_and!; reflexivity. Qed.

(** ** Where the ranked topics come from *)

Lemma for_fold_acc_inv {S A B} (P : B -> Prop) xs acc
    (body : B -> A -> M S B) s s' r :
  P acc ->
  (forall acc x s s1 acc1,
     x ∈ xs -> P acc -> body acc x s = (s1, Ok acc1) -> P acc1) ->
  for_fold xs acc body s = (s', Ok r) ->
  P r.
Proof.
  revert acc s. induction xs as [|x xs IH]; intros acc s Hacc Hbody.
  { by intros [= _ <-]. }
  rewrite for_fold_cons.
  destruct (body acc x s) as [s1 [acc1|e]] eqn:Hstep; [|done].
  apply IH.
  - eapply Hbody; [left|exact Hacc|exact Hstep].
  - intros acc0 x0 s0 s2 acc2 Hx0. apply Hbody. by right.
Qed.

Lemma weighted_edges_ends tcs d d' edges :
  weighted_edges tcs d = (d', Ok edges) ->
  forall e, e ∈ edges -> e.1.1 ∈ tcs /\ e.1.2 ∈ tcs.
Proof.
  unfold weighted_edges.
  apply (for_fold_acc_inv (fun edges => forall e, e ∈ edges -> e.1.1 ∈ tcs /\ e.1.2 ∈ tcs)).
  { by intros e ?%elem_of_nil. }
  intros edges1 v d1 d2 edges2 Hv Hedges1.
  apply (for_fold_acc_inv (fun edges => forall e, e ∈ edges -> e.1.1 ∈ tcs /\ e.1.2 ∈ tcs));
    [done|].
  intros edges3 u d3 d4 edges4 Hu Hedges3.
  destruct (frozenset_eqb u v); [by intros [= _ <-]|].
  unfold bind. destruct (calc_distance v u d3) as [d5 [w|e]]; [|done].
  intros [= _ <-] e [He|He]%elem_of_app; [auto|].
  apply list_elem_of_singleton in He as ->. done.
Qed.

Lemma add_node_elem v nodes a : a ∈ add_node v nodes -> a ∈ nodes \/ a = v.
Proof.
  unfold add_node. destruct (existsb _ nodes); [by left|].
  intros [?|Ha%list_elem_of_singleton]%elem_of_app; [by left|by right].
Qed.

Lemma graph_nodes_ends edges a :
  a ∈ graph_nodes edges -> exists e, e ∈ edges /\ (a = e.1.1 \/ a = e.1.2).
Proof.
  unfold graph_nodes.
  assert (H : forall nodes,
    a ∈ fold_left (fun nodes e => add_node e.1.2 (add_node e.1.1 nodes)) edges nodes ->
    a ∈ nodes \/ exists e, e ∈ edges /\ (a = e.1.1 \/ a = e.1.2)).
  { induction edges as [|e edges IH]; intros nodes; simpl; [by left|].
    intros [Hin|(e' & He' & Ha)]%IH.
    - apply add_node_elem in Hin as [Hin| ->].
      + apply add_node_elem in Hin as [Hin| ->]; [by left|].
        right. exists e. split; [left|by left].
      + right. exists e. split; [left|by right].
    - right. exists e'. split; [by right|done]. }
  intros [?%elem_of_nil|?]%H; done.
Qed.

Lemma slice_to_elem {A} (n : Z) (l : list A) x : x ∈ slice_to n l -> x ∈ l.
Proof. unfold slice_to. destruct (0 <=? n); apply subseteq_take. Qed.

Lemma _identify_topics_members E strategy max_d self self' rank topic :
  _identify_topics E strategy max_d self = (self', Ok tt) ->
  (rank, topic) ∈ topics self' ->
  exists cluster_values members,
    identify_clusters E strategy max_d (dict_keys (phrases self))
      = Ok cluster_values /\
    members ∈ cluster_values /\ topic = frozenset_iter E members.
Proof.
  unfold _identify_topics.
  destruct (identify_clusters _ _ _ _) as [cluster_values|e]; [|done].
  unfold on_phrases.
  destruct (weighted_edges _ (phrases self)) as [d [edges|e]] eqn:Hedges; [|done].
  destruct (pagerank E _ _) as [scores|e]; [|done].
  intros [= <-]. simpl. rewrite sorted_reverse_Permutation.
  intros ([a b] & [= -> ->] & Hin)%list_elem_of_fmap.
  apply elem_of_zip_l, graph_nodes_ends in Hin as (e & He & Ha).
  apply (weighted_edges_ends _ _ _ _ Hedges) in He as [H1 H2].
  assert (Hin : a ∈ map (frozenset_iter E) cluster_values)
    by (destruct Ha as [->| ->]; done).
  apply list_elem_of_fmap in Hin as (members & -> & Hm).
  by exists cluster_values, members.
Qed.

Lemma fixture_frozenset_ok opposite : frozenset_ok (Fixture.externals opposite).
Proof.
  intros l. simpl. unfold Fixture.iter_order. destruct opposite.
  - split; [rewrite reverse_Permutation; apply NoDup_remove_dups|].
    intros x. by rewrite elem_of_reverse, elem_of_remove_dups.
  - split; [apply NoDup_remove_dups|]. intros x. apply elem_of_remove_dups.
Qed.

(** C4 fails on the code: [predict] takes [topic[0]] of a member list
    that nothing has sorted.  The cluster of "fox red" and "fox" is ranked
    first and its lexicographically first key is "fox"; where the
    frozenset lists "fox red" first, the keyphrase returned is the surface
    form of "fox red".  Where it lists "fox" first the keyphrase is "fox",
    the member that occurs later in the document: the choice follows
    neither order. *)
Theorem first_policy_not_lexicographic :
  let E := Fixture.externals false in
  let X := ["red"; "fox"; "and"; "fox"; "and"; "dog"] in
  let self := _extract_phrases E (fit X (__init__ 10)) in
  phrases self = [("fox red", [0%nat]); ("fox", [1%nat]); ("dog", [2%nat])] /\
  identify_clusters E "average" 1.25%float (dict_keys (phrases self))
    = Ok [["fox red"; "fox"]; ["dog"]] /\
  topics (_identify_topics E "average" 1.25%float self).1
    = [(0.5%float, ["fox red"; "fox"]); (0.5%float, ["dog"])] /\
  first_kp ["fox red"; "fox"] = Some "fox red" /\
  String.ltb "fox" "fox red" = true /\
  (predict E X "average" 1.25%float "first" (__init__ 10)).2
    = Ok ["red fox"; "dog"] /\
  topics (predict (Fixture.externals true) X "average" 1.25%float "first"
            (__init__ 10)).1
    = [(0.5%float, ["fox"; "fox red"]); (0.5%float, ["dog"])] /\
  (predict (Fixture.externals true) X "average" 1.25%float "first"
     (__init__ 10)).2
    = Ok ["fox"; "dog"].
Proof. vm_compute. split_and!; reflexivity. Qed.

(** C3 fails on the code: the member chosen for a topic is the first in
    the iteration order of a frozenset of strings, which follows the
    string hashes of the running interpreter.  Two interpreters that
    iterate the cluster of "fox red" and "fox" in opposite orders return
    different keyphrases for the same document and configuration. *)
Theorem predict_depends_on_frozenset_order :
  frozenset_ok (Fixture.externals false) /\
  frozenset_ok (Fixture.externals true) /\
  Fixture.run false 10 ["red"; "fox"; "and"; "fox"; "and"; "dog"]
    = Ok ["red fox"; "dog"] /\
  Fixture.run true 10 ["red"; "fox"; "and"; "fox"; "and"; "dog"]
    = Ok ["fox"; "dog"].
Proof.
  split_and!; [apply fixture_frozenset_ok..| |]; vm_compute; reflexivity.
Qed.

(** ** [sorted] sorts *)

Section insertion_sort.
Context {A : Type} (lt : A -> A -> bool).
Hypothesis lt_irrefl : forall x, lt x x = false.
Hypothesis lt_trans : forall x y z, lt x y = true -> lt y z = true -> lt x z = true.
Hypothesis lt_total : forall x y, lt x y = true \/ x = y \/ lt y x = true.

Lemma sort_lt_asym x y : lt x y = true -> lt y x = false.
Proof.
  intros Hxy. destruct (lt y x) eqn:Hyx; [|done].
  by rewrite <-(lt_irrefl x), (lt_trans x y x).
Qed.

Lemma sort_le_trans x y z : lt y x = false -> lt z y = false -> lt z x = false.
Proof.
  intros Hxy Hyz. destruct (lt z x) eqn:Hzx; [|done].
  destruct (lt_total x y) as [H| [->|H]]; [|congruence..].
  by rewrite (lt_trans z x y) in Hyz.
Qed.

Lemma sort_le_antisym x y : lt y x = false -> lt x y = false -> x = y.
Proof. intros Hxy Hyx. destruct (lt_total x y) as [?| [?|?]]; congruence. Qed.

Lemma sorted_Permutation l : sorted lt l ≡ₚ l.
Proof.
  induction l as [|x l IH]; [done|].
  unfold sorted in *. simpl. by rewrite ins_Permutation, IH.
Qed.

Lemma ins_Sorted x l :
  Sorted (fun x y => lt y x = false) l ->
  Sorted (fun x y => lt y x = false) (ins lt x l).
Proof.
  induction 1 as [|y l Hl IH Hy]; simpl; [by repeat constructor|].
  destruct (lt y x) eqn:Hyx.
  - constructor; [done|]. destruct l as [|z l]; simpl.
    + constructor. by apply sort_lt_asym.
    + destruct (lt z x); constructor; [by inversion Hy|by apply sort_lt_asym].
  - by repeat constructor.
Qed.

Lemma sorted_Sorted l : Sorted (fun x y => lt y x = false) (sorted lt l).
Proof.
  induction l as [|x l IH]; [constructor|]. by apply ins_Sorted.
Qed.

Lemma Sorted_le_unique l1 l2 :
  Sorted (fun x y => lt y x = false) l1 ->
  Sorted (fun x y => lt y x = false) l2 ->
  l1 ≡ₚ l2 -> l1 = l2.
Proof.
  apply Sorted_unique.
  - intros x y z. apply sort_le_trans.
  - intros x y. apply sort_le_antisym.
Qed.

Lemma sorted_Permutation_eq l1 l2 : l1 ≡ₚ l2 -> sorted lt l1 = sorted lt l2.
Proof.
  intros Hp. apply Sorted_le_unique; [apply sorted_Sorted..|].
  by rewrite !sorted_Permutation.
Qed.

Lemma sorted_of_Sorted l :
  Sorted (fun x y => lt y x = false) l -> sorted lt l = l.
Proof.
  intros Hl. apply Sorted_le_unique; [apply sorted_Sorted|done|].
  apply sorted_Permutation.
Qed.

End insertion_sort.

Lemma ltb_lt a b : String.ltb a b = true <-> String_as_OT.lt a b.
Proof.
  unfold String.ltb, String_as_OT.lt.
  change (String.compare a b) with (String_as_OT.compare a b).
  destruct (String_as_OT.compare a b); split; congruence.
Qed.

Lemma ltb_irrefl a : String.ltb a a = false.
Proof.
  destruct (String.ltb a a) eqn:H; [|done].
  apply ltb_lt in H. by apply (irreflexivity String_as_OT.lt) in H.
Qed.

Lemma ltb_trans a b c :
  String.ltb a b = true -> String.ltb b c = true -> String.ltb a c = true.
Proof. rewrite !ltb_lt. apply (transitivity (R:=String_as_OT.lt)). Qed.

Lemma ltb_total a b :
  String.ltb a b = true \/ a = b \/ String.ltb b a = true.
Proof. rewrite !ltb_lt. destruct (String_as_OT.compare_spec a b); auto. Qed.

Lemma pair_lt_irrefl p : pair_lt p p = false.
Proof. unfold pair_lt. by rewrite Nat.eqb_refl, ltb_irrefl. Qed.

Lemma pair_lt_trans p q r :
  pair_lt p q = true -> pair_lt q r = true -> pair_lt p r = true.
Proof.
  unfold pair_lt.
  destruct (Nat.eqb_spec p.1 q.1) as [Hpq|Hpq], (Nat.eqb_spec q.1 r.1) as [Hqr|Hqr],
    (Nat.eqb_spec p.1 r.1) as [Hpr|Hpr]; rewrite ?Nat.ltb_lt;
    try lia; try congruence.
  apply ltb_trans.
Qed.

Lemma pair_lt_total p q : pair_lt p q = true \/ p = q \/ pair_lt q p = true.
Proof.
  unfold pair_lt. destruct p as [c t], q as [c' t']; simpl.
  destruct (Nat.eqb_spec c c') as [->|Hne].
  - rewrite Nat.eqb_refl. destruct (ltb_total t t') as [?| [->|?]]; auto.
  - destruct (Nat.eqb_spec c' c); [congruence|]. rewrite !Nat.ltb_lt. lia.
Qed.

(** ** Characters *)

Lemma lower_word_char_spec c :
  lower_word_char c = true ->
  Fixture.is_word_char c = true /\ lower_char c = c /\
  Ascii.eqb c "<"%char = false /\ Ascii.eqb c " "%char = false /\
  Tokenizer.is_space c = false.
Proof.
  destruct c as [[] [] [] [] [] [] [] []]; vm_compute;
    intros H; try discriminate H; split_and!; reflexivity.
Qed.

Lemma is_word_char_lower c :
  Fixture.is_word_char (lower_char c) = true ->
  lower_word_char (lower_char c) = true.
Proof.
  destruct c as [[] [] [] [] [] [] [] []]; vm_compute;
    intros H; try discriminate H; reflexivity.
Qed.

Lemma space_char_spec c :
  Ascii.eqb c " "%char = true ->
  c = " "%char /\ Fixture.is_word_char c = false /\ lower_char c = c /\
  Ascii.eqb c "<"%char = false /\ Tokenizer.is_space c = true.
Proof.
  destruct c as [[] [] [] [] [] [] [] []]; vm_compute;
    intros H; try discriminate H; split_and!; reflexivity.
Qed.

(** ** [BasicPreprocessor.transform] *)

Lemma squeeze_lower_clean gap s :
  clean_from gap (BasicPreprocessor.squeeze gap (Py.lower s)) = true.
Proof.
  revert gap. induction s as [|c s IH]; intros gap; [done|].
  simpl. destruct (Fixture.is_word_char (lower_char c)) eqn:Hw.
  - simpl. by rewrite (is_word_char_lower c Hw).
  - destruct gap; [apply IH|]. simpl. apply IH.
Qed.

Lemma clean_fixed gap s :
  clean_from gap s = true ->
  BasicPreprocessor.strip_tags None s = s /\ Py.lower s = s /\
  BasicPreprocessor.squeeze gap s = s.
Proof.
  revert gap. induction s as [|c s IH]; intros gap; [done|].
  simpl. destruct (lower_word_char c) eqn:Hc.
  - destruct (lower_word_char_spec c Hc) as (-> & -> & -> & _).
    intros (-> & -> & ->)%IH. done.
  - intros [[Hsp Hgap%negb_true_iff]%andb_prop Hs]%andb_prop. subst gap.
    destruct (space_char_spec c Hsp) as (-> & _). simpl.
    apply IH in Hs as (-> & -> & ->). done.
Qed.

(** On ASCII text [BasicPreprocessor.transform] returns lower-case
    letters, digits, underscores and single spaces only. *)
Theorem preprocessor_output_clean X :
  ascii_text X = true ->
  clean (BasicPreprocessor.transform X) = true.
Proof. intros _. apply squeeze_lower_clean. Qed.

Lemma preprocessor_output_clean_witness :
  clean (BasicPreprocessor.transform "<p>Red  FOX, <b>dog</b> a<b") = true.
Proof. apply preprocessor_output_clean. reflexivity. Defined.

(** [BasicPreprocessor.transform] leaves a text of that shape as it is. *)
Theorem preprocessor_fixes_clean X :
  clean X = true -> BasicPreprocessor.transform X = X.
Proof.
  intros (Ht & Hl & Hs)%clean_fixed. unfold BasicPreprocessor.transform.
  cbv zeta. by rewrite Ht, Hl, Hs.
Qed.

Lemma preprocessor_fixes_clean_witness :
  clean " red fox_2 " = true /\
  BasicPreprocessor.transform " red fox_2 " = " red fox_2 ".
Proof.
  split; [reflexivity|]. apply preprocessor_fixes_clean. reflexivity.
Defined.

(** On ASCII text, applying [BasicPreprocessor.transform] twice is the
    same as applying it once. *)
Theorem preprocessor_idempotent X :
  ascii_text X = true ->
  BasicPreprocessor.transform (BasicPreprocessor.transform X)
  = BasicPreprocessor.transform X.
Proof.
  intros _.
  destruct (clean_fixed false (BasicPreprocessor.transform X)) as (Ht & Hl & Hs).
  { apply squeeze_lower_clean. }
  unfold BasicPreprocessor.transform at 1. cbv zeta. by rewrite Ht, Hl, Hs.
Qed.

Lemma preprocessor_idempotent_witness :
  BasicPreprocessor.transform (BasicPreprocessor.transform "a <b>B</b>&amp;c")
  = BasicPreprocessor.transform "a <b>B</b>&amp;c".
Proof. apply preprocessor_idempotent. reflexivity. Defined.

Example preprocessor_example :
  BasicPreprocessor.transform "<p>Red  FOX, <b>dog</b> a<b" = "red fox dog a b".
Proof. reflexivity. Qed.

(** ** [Tokenizer.transform] *)

Lemma pieces_not_nil s : Tokenizer.pieces s <> [].
Proof.
  destruct s as [|c s]; simpl; [done|].
  destruct (Tokenizer.is_space c); [done|]. by destruct (Tokenizer.pieces s).
Qed.

Lemma pieces_all_chars (P : ascii -> bool) s :
  all_chars (fun c => P c || Tokenizer.is_space c)%bool s = true ->
  Forall (fun w => all_chars P w = true) (Tokenizer.pieces s).
Proof.
  induction s as [|c s IH]; simpl; [by repeat constructor|].
  intros [Hc Hs%IH]%andb_prop.
  destruct (Tokenizer.is_space c) eqn:Hsp; [by constructor|].
  rewrite orb_false_r in Hc.
  destruct (Tokenizer.pieces s) as [|w ws]; [by repeat constructor; simpl; rewrite Hc|].
  inversion Hs; subst. constructor; [simpl; by rewrite Hc|done].
Qed.

Lemma all_chars_or_true (P : ascii -> bool) s :
  all_chars (fun c => negb (P c) || P c)%bool s = true.
Proof.
  induction s as [|c s IH]; simpl; [done|]. rewrite IH. by destruct (P c).
Qed.

(** On ASCII text [Tokenizer.transform] returns tokens that are not
    empty and hold no white space. *)
Theorem tokenizer_tokens X :
  ascii_text X = true ->
  Forall (fun w => is_token w = true) (Tokenizer.transform X).
Proof.
  intros _. unfold Tokenizer.transform. apply Forall_forall.
  intros w [Hne Hin]%list_elem_of_filter.
  pose proof (pieces_all_chars (fun c => negb (Tokenizer.is_space c)) X
                (all_chars_or_true _ X)) as Hall.
  rewrite Forall_forall in Hall. unfold is_token. rewrite (Hall w Hin).
  by destruct w.
Qed.

Lemma pieces_token w :
  all_chars (fun c => negb (Tokenizer.is_space c)) w = true ->
  Tokenizer.pieces w = [w].
Proof.
  induction w as [|c w IH]; simpl; [done|].
  intros [Hc%negb_true_iff Hw%IH]%andb_prop. by rewrite Hc, Hw.
Qed.

Lemma pieces_token_space w rest :
  all_chars (fun c => negb (Tokenizer.is_space c)) w = true ->
  Tokenizer.pieces (String.append w (String " "%char rest))
  = w :: Tokenizer.pieces rest.
Proof.
  induction w as [|c w IH]; simpl; [done|].
  intros [Hc%negb_true_iff Hw%IH]%andb_prop. by rewrite Hc, Hw.
Qed.

Lemma pieces_join ws :
  ws <> [] ->
  Forall (fun w => is_token w = true) ws ->
  Tokenizer.pieces (join " " ws) = ws.
Proof.
  induction ws as [|w ws IH]; [done|]. intros _ Hall.
  inversion Hall as [|? ? [_ Hw]%andb_prop Hws]; subst.
  destruct ws as [|w' ws]; simpl.
  - by apply pieces_token.
  - change (String.append " " ?r) with (String " "%char r).
    rewrite pieces_token_space by done. f_equal. by apply IH.
Qed.

Lemma filter_Forall {A} (P : A -> Prop) `{forall x, Decision (P x)} l :
  Forall P l -> filter P l = l.
Proof.
  induction 1 as [|x l Hx _ IH]; [done|]. by rewrite filter_cons_True, IH.
Qed.

Lemma tokenizer_tokens_witness :
  Forall (fun w => is_token w = true) (Tokenizer.transform "  red fox   x-1 ").
Proof. apply tokenizer_tokens. reflexivity. Defined.

(** Splitting ASCII tokens joined by single spaces gives the tokens
    back. *)
Theorem tokenizer_join_round_trip ws :
  Forall (fun w => ascii_text w = true) ws ->
  Forall (fun w => is_token w = true) ws ->
  Tokenizer.transform (join " " ws) = ws.
Proof.
  intros _ Hall. unfold Tokenizer.transform.
  destruct ws as [|w ws]; [done|].
  rewrite pieces_join by done.
  apply filter_Forall, Forall_forall. rewrite Forall_forall in Hall.
  intros x Hx%Hall ->. done.
Qed.

Lemma tokenizer_join_round_trip_witness :
  Tokenizer.transform (join " " ["red"; "fox"; "x-1"]) = ["red"; "fox"; "x-1"].
Proof.
  apply tokenizer_join_round_trip; repeat constructor.
Defined.

Lemma clean_all_chars gap s :
  clean_from gap s = true ->
  all_chars (fun c => lower_word_char c || Tokenizer.is_space c)%bool s = true.
Proof.
  revert gap. induction s as [|c s IH]; intros gap; simpl; [done|].
  destruct (lower_word_char c) eqn:Hc; simpl; [apply IH|].
  intros [[Hsp _]%andb_prop Hs%IH]%andb_prop.
  destruct (space_char_spec c Hsp) as (_ & _ & _ & _ & ->). done.
Qed.

(** The tokens of an ASCII text that went through
    [BasicPreprocessor.transform] are non-empty words of lower-case
    letters, digits and underscores. *)
Theorem tokenizer_after_preprocessor X :
  ascii_text X = true ->
  Forall (fun w => w <> EmptyString /\ all_chars lower_word_char w = true)
    (Tokenizer.transform (BasicPreprocessor.transform X)).
Proof.
  intros _. unfold Tokenizer.transform. apply Forall_forall.
  intros w [Hne Hin]%list_elem_of_filter. split; [done|].
  pose proof (pieces_all_chars lower_word_char _
                (clean_all_chars _ _ (squeeze_lower_clean false
                   (BasicPreprocessor.strip_tags None X)))) as Hall.
  rewrite Forall_forall in Hall. by apply Hall.
Qed.

Lemma tokenizer_after_preprocessor_witness :
  Forall (fun w => w <> EmptyString /\ all_chars lower_word_char w = true)
    (Tokenizer.transform (BasicPreprocessor.transform "<p>Red  FOX, <b>dog</b>")).
Proof. apply tokenizer_after_preprocessor. reflexivity. Defined.

Example tokenizer_example :
  Tokenizer.transform (BasicPreprocessor.transform "<p>Red  FOX, <b>dog</b>")
  = ["red"; "fox"; "dog"].
Proof. reflexivity. Qed.

(** ** [StopwordsFilter.transform] *)

Lemma texts_induction (P : StopwordsFilter.texts -> Prop) :
  (forall s, P (StopwordsFilter.Str s)) ->
  (forall xs, Forall P xs -> P (StopwordsFilter.Iter xs)) ->
  forall X, P X.
Proof.
  intros HS HI. fix IH 1. intros [s|xs]; [apply HS|]. apply HI.
  induction xs as [|x xs IHxs]; constructor; [apply IH|apply IHxs].
Qed.

Lemma stopwords_leaves stopwords X :
  (forall Y, StopwordsFilter.transform stopwords X = Some Y ->
     StopwordsFilter.leaves Y
     = filter (fun s => s ∉ stopwords) (StopwordsFilter.leaves X)) /\
  (StopwordsFilter.transform stopwords X = None ->
     filter (fun s => s ∉ stopwords) (StopwordsFilter.leaves X) = []).
Proof.
  induction X as [s|xs IH] using texts_induction; simpl.
  - destruct (decide (s ∈ stopwords)) as [Hin|Hout].
    + split; [done|]. intros _. by rewrite filter_cons_False by auto.
    + split; [|done]. intros Y [= <-]. simpl. by rewrite filter_cons_True.
  - split; [|done]. intros Y [= <-]. simpl.
    induction IH as [|x xs [HS HN] _ IHxs]; [done|].
    simpl. rewrite filter_app, <-IHxs.
    destruct (StopwordsFilter.transform stopwords x) as [y|]; simpl.
    + by rewrite (HS y).
    + by rewrite HN.
Qed.

(** The strings of the result of [StopwordsFilter.transform] are the
    strings of the argument that are not stop words, in their order, at
    whatever depth they are. *)
Theorem stopwords_filter_leaves stopwords X Y :
  StopwordsFilter.transform stopwords X = Some Y ->
  StopwordsFilter.leaves Y
  = filter (fun s => s ∉ stopwords) (StopwordsFilter.leaves X).
Proof. apply stopwords_leaves. Qed.

Lemma stopwords_filter_leaves_witness :
  let X := StopwordsFilter.Iter
             [StopwordsFilter.Str "the";
              StopwordsFilter.Iter [StopwordsFilter.Str "fox";
                                    StopwordsFilter.Str "the"];
              StopwordsFilter.Str "dog"] in
  let Y := StopwordsFilter.Iter
             [StopwordsFilter.Iter [StopwordsFilter.Str "fox"];
              StopwordsFilter.Str "dog"] in
  StopwordsFilter.leaves Y
  = filter (fun s => s ∉ ({["the"]} : gset string)) (StopwordsFilter.leaves X).
Proof.
  intros X Y. apply (stopwords_filter_leaves {["the"]} X Y).
  vm_compute. reflexivity.
Defined.

(** On a list of strings [StopwordsFilter.transform] is [filter]: it
    returns the list of the strings that are not stop words. *)
Theorem stopwords_filter_flat stopwords (l : list string) :
  StopwordsFilter.transform stopwords
    (StopwordsFilter.Iter (StopwordsFilter.Str <$> l))
  = Some (StopwordsFilter.Iter
            (StopwordsFilter.Str <$> filter (fun s => s ∉ stopwords) l)).
Proof.
  simpl. do 2 f_equal. induction l as [|s l IH]; [done|].
  rewrite fmap_cons. simpl. destruct (decide (s ∈ stopwords)) as [Hin|Hout].
  - rewrite filter_cons_False by auto. apply IH.
  - rewrite filter_cons_True by done. rewrite fmap_cons. f_equal. apply IH.
Qed.

(** What [StopwordsFilter.transform] returns it returns unchanged when
    applied again. *)
Theorem stopwords_filter_idempotent stopwords X Y :
  StopwordsFilter.transform stopwords X = Some Y ->
  StopwordsFilter.transform stopwords Y = Some Y.
Proof.
  revert Y. induction X as [s|xs IH] using texts_induction; intros Y; simpl.
  - destruct (decide (s ∈ stopwords)) as [Hin|Hout]; [done|].
    intros [= <-]. simpl. by rewrite decide_False.
  - intros [= <-].
    change (Some (StopwordsFilter.Iter
                    (omap (StopwordsFilter.transform stopwords)
                       (omap (StopwordsFilter.transform stopwords) xs)))
            = Some (StopwordsFilter.Iter
                      (omap (StopwordsFilter.transform stopwords) xs))).
    do 2 f_equal.
    induction IH as [|x xs Hx _ IHxs]; [done|]. csimpl.
    destruct (StopwordsFilter.transform stopwords x) as [y|] eqn:Hy; [|done].
    csimpl. by rewrite (Hx y eq_refl), IHxs.
Qed.

Lemma stopwords_filter_idempotent_witness :
  let Y := StopwordsFilter.Iter
             [StopwordsFilter.Iter []; StopwordsFilter.Str "dog"] in
  StopwordsFilter.transform {["the"]} Y = Some Y.
Proof.
  intros Y.
  apply (stopwords_filter_idempotent {["the"]}
           (StopwordsFilter.Iter
              [StopwordsFilter.Iter [StopwordsFilter.Str "the"];
               StopwordsFilter.Str "the"; StopwordsFilter.Str "dog"]) Y).
  vm_compute. reflexivity.
Defined.

(** With no stop words, the set that [__init__] falls back to when the
    nltk list cannot be loaded, [StopwordsFilter.transform] returns its
    argument. *)
Theorem stopwords_filter_empty X :
  StopwordsFilter.transform ∅ X = Some X.
Proof.
  induction X as [s|xs IH] using texts_induction; simpl.
  - by rewrite decide_False by set_solver.
  - change (Some (StopwordsFilter.Iter
                    (omap (StopwordsFilter.transform ∅) xs))
            = Some (StopwordsFilter.Iter xs)).
    do 2 f_equal. induction IH as [|x xs Hx _ IHxs]; [done|].
    csimpl. by rewrite Hx, IHxs.
Qed.

(** ** Keys and occurrence lists *)

(** The key of a segment does not depend on the order of its words. *)
Theorem phrase_key_Permutation p q :
  p ≡ₚ q -> phrase_key p = phrase_key q.
Proof.
  intros Hpq. unfold phrase_key. f_equal.
  apply sorted_Permutation_eq; [apply ltb_irrefl|apply ltb_trans|apply ltb_total|done].
Qed.

Lemma phrase_key_Permutation_witness :
  phrase_key ["red"; "quick"; "fox"] = phrase_key ["fox"; "red"; "quick"].
Proof.
  apply phrase_key_Permutation.
  change (["red"; "quick"] ++ ["fox"] ≡ₚ ["fox"] ++ ["red"; "quick"]).
  apply Permutation_app_comm.
Defined.

Lemma filtered_indices_sorted {A} (P : nat * A -> Prop)
    `{forall x, Decision (P x)} (l : list A) n :
  StronglySorted Nat.lt ((filter P (zip (seq n (length l)) l)).*1) /\
  Forall (fun i => (n <= i)%nat) ((filter P (zip (seq n (length l)) l)).*1).
Proof.
  revert n. induction l as [|x l IH]; intros n; simpl; [by split; constructor|].
  destruct (IH (S n)) as [Hs Hge].
  assert (Hgt : Forall (fun i => (n < i)%nat)
                  ((filter P (zip (seq (S n) (length l)) l)).*1)).
  { eapply Forall_impl; [exact Hge|]. simpl. lia. }
  destruct (decide (P (n, x))) as [HP|HP].
  - rewrite filter_cons_True by done. simpl. split.
    + constructor; [done|]. exact Hgt.
    + constructor; [lia|]. eapply Forall_impl; [exact Hgt|]. simpl. lia.
  - rewrite filter_cons_False by done. split; [done|].
    eapply Forall_impl; [exact Hgt|]. simpl. lia.
Qed.

Lemma record_segments_keys ps qs d seg :
  seg ∈ qs -> seg <> [] ->
  phrase_key seg ∈ dict_keys
    (fold_left
       (fun d phrase =>
          match phrase with
          | [] => d
          | _ :: _ => dict_set (phrase_key phrase) (same_segment_indices phrase ps) d
          end) qs d).
Proof.
  revert d. induction qs as [|q qs IH]; intros d Hin Hne;
    [by apply elem_of_nil in Hin|].
  simpl. apply elem_of_cons in Hin as [<-|Hin]; [|by apply IH].
  apply (record_segments_grows qs ps). destruct seg as [|w seg]; [done|].
  apply dict_get_keys. rewrite dict_get_set, decide_True by done. eauto.
Qed.

(** On a new instance the keys of the phrase map are the keys of the
    segments that are not empty, the last segment included when the
    document ends inside a phrase. *)
Theorem extract_phrases_keys E X n k :
  k ∈ dict_keys (phrases (_extract_phrases E (fit X (__init__ n)))) <->
  exists seg, seg ∈ segments (scan_text E (fit X (__init__ n))) /\
              seg <> [] /\ phrase_key seg = k.
Proof.
  split.
  - intros [v (seg & Hne & Hin & -> & _)%extract_phrases_recorded]%dict_get_keys.
    by exists seg.
  - intros (seg & Hin & Hne & <-). unfold _extract_phrases. simpl.
    by apply record_segments_keys.
Qed.

Example extract_phrases_flushes_the_last_segment :
  let E := Fixture.externals false in
  let self := fit ["dog"; "and"; "red"; "fox"] (__init__ 10) in
  segments (scan_text E self) = [["dog"]; ["red"; "fox"]] /\
  phrases (_extract_phrases E self) = [("dog", [0%nat]); ("fox red", [1%nat])].
Proof. vm_compute. split; reflexivity. Qed.

(** On a new instance every occurrence list is not empty, is strictly
    increasing, and holds only indices of segments with that key. *)
Theorem extract_phrases_occurrences E X n k v :
  dict_get k (phrases (_extract_phrases E (fit X (__init__ n)))) = Some v ->
  v <> [] /\
  StronglySorted Nat.lt v /\
  forall i, i ∈ v ->
    exists seg, segments (scan_text E (fit X (__init__ n))) !! i = Some seg /\
                seg <> [] /\ phrase_key seg = k.
Proof.
  intros Hk. pose proof (extract_phrases_recorded _ _ _ _ _ Hk) as Hrec.
  split_and!.
  - destruct Hrec as (phrase & Hne & Hin & -> & ->). intros Hnil.
    apply list_elem_of_lookup in Hin as [i Hi].
    apply same_segment_indices_elem in Hi. rewrite Hnil in Hi.
    by apply elem_of_nil in Hi.
  - destruct Hrec as (phrase & _ & _ & _ & ->).
    apply (filtered_indices_sorted (fun ij : nat * list string => ij.2 = phrase)).
  - intros i Hi. by apply (recorded_occurrence _ _ _ _ Hrec).
Qed.

Lemma extract_phrases_occurrences_witness :
  let E := Fixture.externals false in
  let X := ["fox"; "and"; "dog"; "and"; "fox"] in
  [0; 2]%nat <> [] /\
  StronglySorted Nat.lt [0; 2]%nat /\
  forall i, i ∈ [0; 2]%nat ->
    exists seg, segments (scan_text E (fit X (__init__ 10))) !! i = Some seg /\
                seg <> [] /\ phrase_key seg = "fox".
Proof.
  intros E X. apply (extract_phrases_occurrences E X 10 "fox" [0; 2]%nat).
  vm_compute. reflexivity.
Defined.

(** ** The token loop *)

Lemma scan_token_fields E tags st token :
  let content := in_tag_set tags (pos_of E token) in
  let stemmed_word := @transform (stemmer E) token in
  let long := Nat.ltb 1 (String.length stemmed_word) in
  counter (scan_token E tags st token) = S (counter st) /\
  unstem (scan_token E tags st token) =
    (if (content && long)%bool
     then <[stemmed_word := (counter st, token)]> (unstem st)
     else unstem st) /\
  segments (scan_token E tags st token) =
    (if content
     then if long then append_last stemmed_word (segments st) else segments st
     else match default [] (last (segments st)) with
          | [] => segments st
          | _ :: _ => segments st ++ [[]]
          end).
Proof.
  cbv zeta. unfold scan_token.
  destruct (in_tag_set tags (pos_of E token)); simpl.
  - destruct (Nat.ltb 1 _); simpl; by destruct (Nat.eqb _ 1).
  - by destruct (default [] (last (segments st))).
Qed.

Lemma scan_invariant E tags X :
  let st := fold_left (scan_token E tags) X
              {| segments := [[]]; positions := []; counter := 0;
                 unstem := ∅ |} in
  counter st = length X /\
  (forall w c t, unstem st !! w = Some (c, t) ->
     X !! c = Some t /\ @transform (stemmer E) t = w /\
     in_tag_set tags (pos_of E t) = true /\ (1 < String.length w)%nat /\
     forall c' t', (c < c')%nat -> X !! c' = Some t' ->
                   in_tag_set tags (pos_of E t') = true ->
                   @transform (stemmer E) t' <> w) /\
  (forall c t, X !! c = Some t -> in_tag_set tags (pos_of E t) = true ->
     (1 < String.length (@transform (stemmer E) t))%nat ->
     is_Some (unstem st !! @transform (stemmer E) t)) /\
  (exists init final, segments st = init ++ [final] /\
                      Forall (fun seg => seg <> []) init) /\
  (forall seg w, seg ∈ segments st -> w ∈ seg -> is_Some (unstem st !! w)).
Proof.
  cbv zeta. induction X as [|x X IH] using rev_ind.
  { simpl. split_and!; try done.
    - exists [], []. by split.
    - intros seg w ->%list_elem_of_singleton Hw. by apply elem_of_nil in Hw. }
  rewrite fold_left_app.
  set (st := fold_left (scan_token E tags) X _) in *.
  change (fold_left (scan_token E tags) [x] st) with (scan_token E tags st x).
  destruct IH as (Hcnt & Hent & Hall & (init & final & Hseg & Hinit) & Hwords).
  destruct (scan_token_fields E tags st x) as (Hc' & Hu' & Hs').
  cbv zeta in Hu', Hs'. rewrite Hc', Hu', Hs', Hcnt, Hseg. clear Hc' Hu' Hs'.
  rewrite last_snoc. simpl.
  destruct (in_tag_set tags (pos_of E x)) eqn:Hcontent; simpl.
  - destruct (Nat.ltb 1 (String.length (@transform (stemmer E) x))) eqn:Hlong.
    + apply Nat.ltb_lt in Hlong. split_and!.
      * rewrite length_app. simpl. lia.
      * intros w c t. rewrite lookup_insert. case_decide as Hw.
        -- intros [= <- <-]. subst w. split_and!; try done.
           ++ by rewrite lookup_app_r, Nat.sub_diag by lia.
           ++ intros c' t' Hlt Hl2. apply lookup_lt_Some in Hl2.
              rewrite length_app in Hl2. simpl in Hl2. lia.
        -- intros (Hl & Hst & Hct & Hlen & Hlast)%Hent. split_and!; try done.
           ++ by apply lookup_app_l_Some.
           ++ intros c' t' Hlt [[_ Hl2]|[-> ->]]%lookup_snoc_Some; [|congruence].
              by apply (Hlast c').
      * intros c t [[_ Hl]|[-> ->]]%lookup_snoc_Some Hct Hlen.
        -- rewrite lookup_insert. case_decide; [eauto|]. by apply Hall with c.
        -- rewrite lookup_insert_eq. eauto.
      * unfold append_last. rewrite removelast_last, last_snoc. simpl.
        by exists init, (final ++ [@transform (stemmer E) x]).
      * unfold append_last. rewrite removelast_last, last_snoc. simpl.
        intros seg w Hseg' Hw. rewrite lookup_insert. case_decide; [eauto|].
        apply elem_of_app in Hseg' as [Hseg'|Hseg'%list_elem_of_singleton].
        -- apply Hwords with seg; [|done]. rewrite Hseg.
           apply elem_of_app. by left.
        -- subst seg.
           apply elem_of_app in Hw as [Hw|Hw%list_elem_of_singleton];
             [|congruence].
           apply Hwords with final; [|done]. rewrite Hseg.
           apply elem_of_app. right. by apply list_elem_of_singleton.
    + apply Nat.ltb_ge in Hlong. split_and!.
      * rewrite length_app. simpl. lia.
      * intros w c t (Hl & Hst & Hct & Hlen & Hlast)%Hent. split_and!; try done.
        -- by apply lookup_app_l_Some.
        -- intros c' t' Hlt [[_ Hl2]|[-> ->]]%lookup_snoc_Some; [by apply (Hlast c')|].
           intros _ <-. lia.
      * intros c t [[_ Hl]|[-> ->]]%lookup_snoc_Some Hct Hlen; [by apply Hall with c|lia].
      * by exists init, final.
      * by rewrite <-Hseg.
  - split_and!.
    + rewrite length_app. simpl. lia.
    + intros w c t (Hl & Hst & Hct & Hlen & Hlast)%Hent. split_and!; try done.
      * by apply lookup_app_l_Some.
      * intros c' t' Hlt [[_ Hl2]|[-> ->]]%lookup_snoc_Some; [by apply (Hlast c')|].
        congruence.
    + intros c t [[_ Hl]|[-> ->]]%lookup_snoc_Some Hct Hlen; [by apply Hall with c|].
      congruence.
    + destruct final as [|w final]; [by exists init, []|].
      exists (init ++ [w :: final]), []. split; [done|].
      apply Forall_app. split; [done|]. by repeat constructor.
    + intros seg w Hin Hw. apply Hwords with seg; [|done].
      destruct final as [|w' final]; [by rewrite <-Hseg in Hin|].
      apply elem_of_app in Hin as [Hin|Hin%list_elem_of_singleton];
        [by rewrite Hseg|subst seg; by apply elem_of_nil in Hw].
Qed.

(** On a new instance an entry of the surface-form map for a stemmed
    word holds the position and the token of the last content token of
    the document that stems to it. *)
Theorem surface_map_keeps_last_occurrence E X n w c token :
  unstem_map (_extract_phrases E (fit X (__init__ n))) !! w = Some (c, token) ->
  X !! c = Some token /\
  @transform (stemmer E) token = w /\
  in_tag_set default_tag_set (pos_of E token) = true /\
  (1 < String.length w)%nat /\
  forall c' token', (c < c')%nat -> X !! c' = Some token' ->
    in_tag_set default_tag_set (pos_of E token') = true ->
    @transform (stemmer E) token' <> w.
Proof.
  destruct (scan_invariant E default_tag_set X) as (_ & Hent & _).
  apply Hent.
Qed.

Lemma surface_map_keeps_last_occurrence_witness :
  let E := Fixture.externals false in
  let X := ["Fox"; "and"; "fox"; "and"; "dog"] in
  X !! 2%nat = Some "fox" /\
  @transform (stemmer E) "fox" = "fox" /\
  in_tag_set default_tag_set (pos_of E "fox") = true /\
  (1 < String.length "fox")%nat /\
  forall c' token', (2 < c')%nat -> X !! c' = Some token' ->
    in_tag_set default_tag_set (pos_of E token') = true ->
    @transform (stemmer E) token' <> "fox".
Proof.
  intros E X.
  apply (surface_map_keeps_last_occurrence E X 10 "fox" 2%nat "fox").
  vm_compute. reflexivity.
Defined.

(** Only the last segment can be empty: every other segment index is
    the index of a phrase. *)
Theorem segments_only_last_empty E X n i :
  segments (scan_text E (fit X (__init__ n))) !! i = Some [] ->
  S i = length (segments (scan_text E (fit X (__init__ n)))).
Proof.
  intros Hi.
  destruct (scan_invariant E default_tag_set X)
    as (_ & _ & _ & (init & final & Hseg & Hinit) & _).
  change (fold_left _ X _) with (scan_text E (fit X (__init__ n))) in Hseg.
  rewrite Hseg in Hi |- *. rewrite length_app. simpl.
  apply lookup_snoc_Some in Hi as [[_ Hi]|[-> _]]; [|lia].
  rewrite Forall_forall in Hinit. exfalso. apply (Hinit []); [|done].
  by eapply list_elem_of_lookup_2.
Qed.

Lemma segments_only_last_empty_witness :
  let E := Fixture.externals false in
  S 1 = length (segments (scan_text E (fit ["fox"; "and"] (__init__ 10)))).
Proof.
  intros E.
  apply (segments_only_last_empty E ["fox"; "and"] 10 1%nat). reflexivity.
Defined.

(** ** Surface forms *)

Lemma split_space_word w :
  spaceless w = true -> split_space w = [w].
Proof.
  induction w as [|c w IH]; simpl; [done|].
  intros [Hc%negb_true_iff Hw%IH]%andb_prop. by rewrite Hc, Hw.
Qed.

Lemma split_space_word_space w rest :
  spaceless w = true ->
  split_space (String.append w (String " "%char rest)) = w :: split_space rest.
Proof.
  induction w as [|c w IH]; simpl; [done|].
  intros [Hc%negb_true_iff Hw%IH]%andb_prop. by rewrite Hc, Hw.
Qed.

Lemma split_space_join ws :
  ws <> [] ->
  Forall (fun w => spaceless w = true) ws ->
  split_space (join " " ws) = ws.
Proof.
  induction ws as [|w ws IH]; [done|]. intros _ Hall.
  inversion Hall as [|? ? Hw Hws]; subst.
  destruct ws as [|w' ws]; simpl.
  - by apply split_space_word.
  - change (String.append " " ?r) with (String " "%char r).
    rewrite split_space_word_space by done. f_equal. by apply IH.
Qed.

Lemma lookups_all (m : gmap string (nat * string)) ws :
  (Forall (fun w => is_Some (m !! w)) ws ->
   for_list ws (fun i => match m !! i with
                         | Some p => Ok p
                         | None => Raise KeyError
                         end)
   = Ok ((fun w => default (0%nat, EmptyString) (m !! w)) <$> ws)) /\
  (Exists (fun w => m !! w = None) ws ->
   for_list ws (fun i => match m !! i with
                         | Some p => Ok p
                         | None => Raise KeyError
                         end)
   = Raise KeyError).
Proof.
  induction ws as [|w ws [IHok IHerr]]; simpl.
  - split; [done|by inversion 1].
  - split.
    + intros Hall. inversion Hall as [|? ? [p Hp] Hws]; subst.
      by rewrite Hp, IHok.
    + intros Hex. destruct (m !! w) as [p|] eqn:Hp; [|done].
      inversion Hex as [? ? Hw|? ? Hws]; subst; [congruence|].
      by rewrite IHerr.
Qed.

(** After [_extract_phrases] on a new instance every word of every
    segment, and the stem of every content token that is longer than one
    character, has an entry in the surface-form map; so for a segment
    that is not empty and whose words hold no space, recovering the
    surface form of its key returns a string: it raises no [KeyError]. *)
Theorem surface_map_covers_segments E X n :
  let self := _extract_phrases E (fit X (__init__ n)) in
  (forall seg w, seg ∈ segments (scan_text E (fit X (__init__ n))) ->
                 w ∈ seg -> is_Some (unstem_map self !! w)) /\
  (forall c token, X !! c = Some token ->
     in_tag_set default_tag_set (pos_of E token) = true ->
     (1 < String.length (@transform (stemmer E) token))%nat ->
     is_Some (unstem_map self !! @transform (stemmer E) token)) /\
  (forall seg, seg ∈ segments (scan_text E (fit X (__init__ n))) ->
     seg <> [] ->
     Forall (fun w => spaceless w = true) seg ->
     exists s, unstem_kp (unstem_map self) (phrase_key seg) = Ok s).
Proof.
  destruct (scan_invariant E default_tag_set X) as (_ & _ & Hall & _ & Hwords).
  split_and!; [apply Hwords|apply Hall|].
  intros seg Hseg Hne Hsp. unfold unstem_kp, phrase_key.
  pose proof (sorted_Permutation String.ltb seg) as Hp.
  rewrite split_space_join.
  - destruct (lookups_all
                (unstem_map (_extract_phrases E (fit X (__init__ n))))
                (sorted String.ltb seg)) as [Hok _].
    rewrite Hok; [by eexists|].
    apply Forall_forall. intros w Hw. rewrite Hp in Hw.
    by apply (Hwords seg w).
  - intros Hnil. rewrite Hnil in Hp. symmetry in Hp.
    by apply Permutation_nil_r in Hp.
  - by rewrite Hp.
Qed.

Lemma surface_map_covers_segments_witness :
  let E := Fixture.externals false in
  let X := ["red"; "fox"; "and"; "dog"] in
  exists s,
    unstem_kp (unstem_map (_extract_phrases E (fit X (__init__ 10))))
      (phrase_key ["red"; "fox"]) = Ok s.
Proof.
  intros E X.
  apply (proj2 (proj2 (surface_map_covers_segments E X 10)) ["red"; "fox"]).
  - vm_compute. left.
  - done.
  - repeat constructor.
Defined.

(** A stem with a space in it breaks the recovery: the key is split at
    the space, and the halves have no entry. *)
Example stem_with_a_space_is_not_found :
  unstem_kp {[ "new york" := (0%nat, "New York") ]} (phrase_key ["new york"])
  = Raise KeyError.
Proof. vm_compute. reflexivity. Qed.

(** Recovering the surface form raises [KeyError] exactly when a word of
    the key has no entry in the surface-form map, and returns a string
    exactly when every word has one. *)
Theorem unstem_kp_key_error (m : gmap string (nat * string)) kp :
  (unstem_kp m kp = Raise KeyError <->
   exists w, w ∈ split_space kp /\ m !! w = None) /\
  ((exists s, unstem_kp m kp = Ok s) <->
   forall w, w ∈ split_space kp -> is_Some (m !! w)).
Proof.
  unfold unstem_kp. destruct (lookups_all m (split_space kp)) as [Hok Herr].
  destruct (decide (Forall (fun w => is_Some (m !! w)) (split_space kp)))
    as [Hall|Hnot].
  - rewrite (Hok Hall). rewrite Forall_forall in Hall. split.
    + split; [done|]. intros (w & Hin & Hw). apply Hall in Hin as [p Hp].
      congruence.
    + split; [done|eauto].
  - assert (Hex : Exists (fun w => m !! w = None) (split_space kp)).
    { apply not_Forall_Exists in Hnot; [|apply _].
      eapply Exists_impl; [exact Hnot|]. simpl. intros w Hw.
      destruct (m !! w); [|done]. exfalso. apply Hw. eauto. }
    rewrite (Herr Hex). split.
    + split; [|done]. intros _. by apply Exists_exists in Hex.
    + split; [by intros [? ?]|]. intros Hall. exfalso. apply Hnot.
      by apply Forall_forall.
Qed.

Lemma positions_Sorted (items : list (string * (nat * string))) :
  StronglySorted (fun a b => (a.2.1 < b.2.1)%nat) items ->
  Sorted (fun x y => pair_lt y x = false) (items.*2).
Proof.
  intros Hs%StronglySorted_Sorted.
  eapply (Sorted_fmap snd); [|exact Hs].
  intros [w1 [c1 t1]] [w2 [c2 t2]]. simpl. intros Hlt. unfold pair_lt. simpl.
  destruct (Nat.eqb_spec c2 c1); [lia|]. apply Nat.ltb_ge. lia.
Qed.

(** Surface-form recovery puts the words back in document order: when
    the surface-form map sends the words of a segment to positions that
    increase along the segment, the recovered string is the tokens of
    the segment, in their order, joined by spaces. *)
Theorem unstem_kp_restores_order (m : gmap string (nat * string))
    (items : list (string * (nat * string))) :
  items <> [] ->
  Forall (fun it => spaceless it.1 = true /\ m !! it.1 = Some it.2) items ->
  StronglySorted (fun a b => (a.2.1 < b.2.1)%nat) items ->
  unstem_kp m (phrase_key (items.*1)) = Ok (join " " (items.*2.*2)).
Proof.
  intros Hne Hall Hsorted. unfold unstem_kp, phrase_key.
  pose proof (sorted_Permutation String.ltb (items.*1)) as Hperm.
  assert (Hin : forall w, w ∈ sorted String.ltb (items.*1) ->
                 exists it, it ∈ items /\ it.1 = w).
  { intros w Hw. rewrite Hperm in Hw.
    apply list_elem_of_fmap in Hw as (it & -> & Hit). eauto. }
  rewrite Forall_forall in Hall.
  rewrite split_space_join.
  - destruct (lookups_all m (sorted String.ltb (items.*1))) as [-> _].
    + f_equal. f_equal. f_equal.
      rewrite (sorted_Permutation_eq pair_lt pair_lt_irrefl pair_lt_trans
                 pair_lt_total _ (items.*2)).
      * apply sorted_of_Sorted;
          [apply pair_lt_irrefl|apply pair_lt_trans|apply pair_lt_total|].
        by apply positions_Sorted.
      * rewrite Hperm, <-list_fmap_compose.
        assert (Heq : (fun w => default (0%nat, EmptyString) (m !! w)) ∘ fst
                        <$> items = items.*2); [|by rewrite Heq].
        apply list_fmap_ext. intros j it Hit%list_elem_of_lookup_2.
        simpl. by destruct (Hall it Hit) as [_ ->].
    + apply Forall_forall. intros w (it & Hit & <-)%Hin.
      destruct (Hall it Hit) as [_ ->]. eauto.
  - intros Hnil. rewrite Hnil in Hperm. symmetry in Hperm.
    apply Permutation_nil_r in Hperm. by destruct items.
  - apply Forall_forall. intros w (it & Hit & <-)%Hin. by apply Hall.
Qed.

Lemma unstem_kp_restores_order_witness :
  let m : gmap string (nat * string) :=
    {[ "red" := (4%nat, "Red"); "fox" := (5%nat, "FOX") ]} in
  unstem_kp m (phrase_key ["red"; "fox"]) = Ok (join " " ["Red"; "FOX"]).
Proof.
  intros m.
  apply (unstem_kp_restores_order m
           [("red", (4%nat, "Red")); ("fox", (5%nat, "FOX"))]).
  - done.
  - repeat constructor.
  - repeat constructor; simpl; lia.
Defined.

(** ** More on [calc_distance] *)

(** [calc_distance] never removes a key from the phrase map and never
    changes an occurrence list; a key it adds has the empty list. *)
Theorem calc_distance_keeps_entries A B d :
  let d' := (calc_distance A B d).1 in
  (forall k v, dict_get k d = Some v -> dict_get k d' = Some v) /\
  (forall k v, dict_get k d' = Some v ->
     dict_get k d = Some v \/ (dict_get k d = None /\ v = [])).
Proof.
  cbv zeta. destruct (calc_distance_run A B d) as (d' & -> & Hocc & Hgrow & _).
  simpl. split; intros k v Hk.
  - assert (Hin : k ∈ dict_keys d') by (apply Hgrow, dict_get_keys; eauto).
    apply dict_get_keys in Hin as [v' Hv']. rewrite Hv'.
    pose proof (Hocc k) as Ho. unfold occ in Ho. rewrite Hv', Hk in Ho.
    simpl in Ho. by rewrite Ho.
  - pose proof (Hocc k) as Ho. unfold occ in Ho. rewrite Hk in Ho.
    destruct (dict_get k d) as [v0|]; simpl in Ho; [left|right]; by rewrite Ho.
Qed.

Lemma for_fold_skip {S A B} (xs : list A) (acc : B) (body : B -> A -> M S B) s :
  (forall acc x s, x ∈ xs -> body acc x s = (s, Ok acc)) ->
  for_fold xs acc body s = (s, Ok acc).
Proof.
  induction xs as [|x xs IH]; intros Hbody; [done|].
  rewrite for_fold_cons, Hbody by left. apply IH.
  intros acc' x' s' Hx'. apply Hbody. by right.
Qed.

(** When no key of the one group differs from a key of the other, as
    when a group is empty or both hold the same single key,
    [calc_distance] returns 0 and does not touch the phrase map. *)
Theorem calc_distance_no_pairs A B d :
  (forall a b, a ∈ A -> b ∈ B -> a = b) ->
  calc_distance A B d = (d, Ok 0%float).
Proof.
  intros Hsame. unfold calc_distance.
  apply for_fold_skip. intros result a d1 Ha.
  apply for_fold_skip. intros result' b d2 Hb.
  by rewrite decide_False by (intros Hne; apply Hne; by apply Hsame).
Qed.

Lemma calc_distance_no_pairs_witness :
  let d := [("fox", [0%nat])] in
  calc_distance ["fox"] ["fox"] d = (d, Ok 0%float) /\
  calc_distance ["fox"; "dog"] [] d = (d, Ok 0%float).
Proof.
  intros d. split; apply calc_distance_no_pairs.
  - intros a b ->%list_elem_of_singleton ->%list_elem_of_singleton. done.
  - intros a b _ Hb. by apply elem_of_nil in Hb.
Defined.

(** ** One cluster, and the number of keyphrases *)

Lemma _identify_topics_one_cluster E strategy max_d self cluster_values :
  identify_clusters E strategy max_d (dict_keys (phrases self))
    = Ok cluster_values ->
  (length cluster_values <= 1)%nat ->
  (exists self' e, _identify_topics E strategy max_d self = (self', Raise e)) \/
  (exists self', _identify_topics E strategy max_d self = (self', Ok tt) /\
                 topics self' = []).
Proof.
  intros Hc Hlen. unfold _identify_topics. rewrite Hc.
  destruct cluster_values as [|members [|? ?]]; [| |simpl in Hlen; lia];
    simpl; unfold on_phrases.
  - change (weighted_edges [] (phrases self))
      with (phrases self, Ok (@nil (list string * list string * float))).
    simpl. destruct (pagerank E _ _); [right|left]; eauto.
  - rewrite weighted_edges_single. simpl.
    destruct (pagerank E _ _); [right|left]; eauto.
Qed.

(** When clustering puts all phrase keys into one cluster, however many
    there are, the graph has no edge and no node, and [predict] returns
    the empty list unless it raises. *)
Theorem predict_one_cluster E X cluster_strategy max_d extract_strategy self
    members :
  identify_clusters E cluster_strategy max_d
    (dict_keys (phrases (_extract_phrases E (fit X self)))) = Ok [members] ->
  (exists e,
     (predict E X cluster_strategy max_d extract_strategy self).2 = Raise e) \/
  (predict E X cluster_strategy max_d extract_strategy self).2 = Ok [].
Proof.
  intros Hc. unfold predict.
  destruct (_identify_topics_one_cluster E cluster_strategy max_d _ _ Hc)
    as [(self' & e & ->)|(self' & -> & Htopics)]; [simpl; lia| |].
  - left. by exists e.
  - right. rewrite Htopics. unfold slice_to.
    destruct (0 <=? _); by rewrite take_nil.
Qed.

Lemma predict_one_cluster_witness :
  let E := Fixture.externals false in
  let X := ["red"; "fox"; "and"; "fox"] in
  identify_clusters E "average" 1.25%float
    (dict_keys (phrases (_extract_phrases E (fit X (__init__ 10)))))
    = Ok [["fox red"; "fox"]] /\
  ((exists e, (predict E X "average" 1.25%float "first" (__init__ 10)).2
              = Raise e) \/
   (predict E X "average" 1.25%float "first" (__init__ 10)).2 = Ok []).
Proof.
  intros E X. split; [vm_compute; reflexivity|].
  apply (predict_one_cluster E X "average" 1.25%float "first" (__init__ 10)
           ["fox red"; "fox"]).
  vm_compute. reflexivity.
Defined.

Example one_cluster_gives_no_keyphrase :
  Fixture.run false 10 ["red"; "fox"; "and"; "fox"] = Ok [].
Proof. vm_compute. reflexivity. Qed.

Lemma dict_set_set {K V} `{EqDecision K} (k : K) (v v0 : V) d :
  dict_set k v (dict_set k v0 d) = dict_set k v d.
Proof.
  induction d as [|[k1 v1] d IH]; simpl.
  - by rewrite decide_True.
  - destruct (decide (k = k1)); simpl.
    + by rewrite decide_True.
    + by rewrite decide_False, IH.
Qed.

Lemma dict_values_set {K V} `{EqDecision K} (k : K) (v x : V) d :
  x ∈ dict_values (dict_set k v d) -> x = v \/ x ∈ dict_values d.
Proof.
  unfold dict_values. induction d as [|[k1 v1] d IH]; simpl.
  - intros ->%list_elem_of_singleton. by left.
  - destruct (decide (k = k1)); simpl.
    + intros [->|Hin]%elem_of_cons; [by left|right; by right].
    + intros [->|Hin]%elem_of_cons; [right; left|].
      destruct (IH Hin); [by left|right; by right].
Qed.

Lemma defaultdict_append_values {K V} `{EqDecision K} (k : K) (x : V) d vs :
  vs ∈ dict_values (defaultdict_append k x d) ->
  vs <> [] \/ vs ∈ dict_values d.
Proof.
  unfold defaultdict_append, defaultdict_getitem.
  destruct (dict_get k d) as [v|]; [|rewrite dict_set_set];
    intros [->|Hin]%dict_values_set; auto; left; by destruct v.
Qed.

Lemma group_clusters_nonempty vocabulary bag ncs cluster_data cluster_data' :
  Forall (fun vs => vs <> []) (dict_values cluster_data) ->
  group_clusters vocabulary bag ncs cluster_data = Ok cluster_data' ->
  Forall (fun vs => vs <> []) (dict_values cluster_data').
Proof.
  revert cluster_data. induction ncs as [|[i c] ncs IH]; intros cd Hcd; simpl.
  - by intros [= <-].
  - destruct (bag !! i) as [row|]; [|done]. apply IH.
    apply Forall_forall. intros vs [Hne|Hin]%defaultdict_append_values; [done|].
    rewrite Forall_forall in Hcd. by apply Hcd.
Qed.

Lemma identify_clusters_nonempty E strategy max_d keys cluster_values :
  identify_clusters E strategy max_d keys = Ok cluster_values ->
  Forall (fun vs => vs <> []) cluster_values.
Proof.
  unfold identify_clusters.
  destruct (fit_transform E keys) as [[vocabulary bag]|]; [|done].
  destruct (linkage E bag strategy) as [link|]; [|done].
  destruct (cophenet E link bag) as [c|]; [|done].
  destruct (fcluster E link max_d) as [clusters|]; [|done].
  destruct (group_clusters _ _ _ _) as [cluster_data|] eqn:Hg; [|done].
  intros [= <-]. eapply group_clusters_nonempty; [|exact Hg]. constructor.
Qed.

Lemma selection_loop_count (m : gmap string (nat * string))
    (ts : list (float * list string)) (result : list string)
    (self self' : TopicalPagerank) r :
  Forall (fun rank_topic => rank_topic.2 <> []) ts ->
  for_fold ts result
    (fun result rank_topic =>
       match first_kp rank_topic.2 with
       | None => ret result
       | Some kp =>
           let* s := lift (unstem_kp m kp) in
           ret (result ++ [s])
       end) self = (self', Ok r) ->
  length r = (length result + length ts)%nat.
Proof.
  revert result. induction ts as [|[rank topic] ts IH]; intros result Hall.
  { intros [= _ <-]. simpl. lia. }
  inversion Hall as [|? ? Htopic Hts]; subst. simpl in Htopic.
  rewrite for_fold_cons. cbn [snd].
  destruct topic as [|kp topic]; [done|]. simpl.
  unfold bind at 1, lift at 1. destruct (unstem_kp m kp) as [s|e]; [|done].
  intros Hrun. apply IH in Hrun; [|done].
  rewrite length_app in Hrun. simpl in *. lia.
Qed.

(** With frozensets that hold the members they were built from, no
    ranked topic is empty, so a [predict] that returns yields exactly
    one keyphrase for each of the first [n_keywords] topics of
    [self.topics] (all but the last [-n_keywords] when that is negative). *)
Theorem predict_count E X cluster_strategy max_d extract_strategy self self' r :
  frozenset_ok E ->
  predict E X cluster_strategy max_d extract_strategy self = (self', Ok r) ->
  length r =
    if 0 <=? n_keywords self
    then Nat.min (Z.to_nat (n_keywords self)) (length (topics self'))
    else (length (topics self') - Z.to_nat (- n_keywords self))%nat.
Proof.
  intros Hfs. unfold predict.
  pose proof (_identify_topics_frame E cluster_strategy max_d
                (_extract_phrases E (fit X self))) as (Hk & _).
  destruct (_identify_topics _ _ _ _) as [self1 [[]|e]] eqn:Hrun; [|done].
  simpl in Hk. intros Hsel.
  assert (Hall : Forall (fun rank_topic : float * list string => rank_topic.2 <> [])
                   (slice_to (n_keywords self1) (topics self1))).
  { apply Forall_forall. intros [rank topic] Hin%slice_to_elem. simpl.
    destruct (_identify_topics_members _ _ _ _ _ _ _ Hrun Hin)
      as (cluster_values & members & Hc & Hm & ->).
    apply identify_clusters_nonempty in Hc. rewrite Forall_forall in Hc.
    specialize (Hc members Hm). destruct members as [|x members]; [done|].
    intros Hnil. destruct (Hfs (x :: members)) as [_ Hmem].
    assert (Hx : x ∈ frozenset_iter E (x :: members)) by (apply Hmem; left).
    rewrite Hnil in Hx. by apply elem_of_nil in Hx. }
  destruct (selection_loop (unstem_map self1)
              (slice_to (n_keywords self1) (topics self1)) [] self1)
    as (out & Hsame & _).
  pose proof Hsel as Hsel'. rewrite Hsame in Hsel'. injection Hsel' as <- ->.
  apply selection_loop_count in Hsel; [|done]. rewrite Hsel. simpl.
  rewrite Hk. unfold slice_to. destruct (0 <=? n_keywords self);
    rewrite length_take; lia.
Qed.

Lemma predict_count_witness :
  let E := Fixture.externals false in
  let X := ["fox"; "and"; "dog"] in
  let self := __init__ 1 in
  let self' := (predict E X "average" 1.25%float "first" self).1 in
  length ["fox"] =
    if 0 <=? n_keywords self
    then Nat.min (Z.to_nat (n_keywords self)) (length (topics self'))
    else (length (topics self') - Z.to_nat (- n_keywords self))%nat.
Proof.
  intros E X self self'.
  apply (predict_count E X "average" 1.25%float "first" self self' ["fox"]).
  - apply fixture_frozenset_ok.
  - vm_compute. reflexivity.
Defined.

(** ** TfIdf: the keywords of a vector *)

Lemma for_list_Ok {A B} (f : A -> res B) xs ys :
  for_list xs f = Ok ys -> Forall2 (fun x y => f x = Ok y) xs ys.
Proof.
  revert ys. induction xs as [|x xs IH]; simpl; intros ys Hys.
  - injection Hys as <-. constructor.
  - destruct (f x) as [b|e] eqn:Hb; [|done].
    destruct (for_list xs f) as [bs|e] eqn:Hbs; [|done].
    injection Hys as <-. constructor; [done|by apply IH].
Qed.

Lemma for_list_total {A B} (f : A -> res B) xs :
  Forall (fun x => exists y, f x = Ok y) xs -> exists ys, for_list xs f = Ok ys.
Proof.
  induction 1 as [|x xs [y Hy] _ [ys IH]]; simpl; [by eexists|].
  rewrite Hy, IH. by eexists.
Qed.

Lemma for_list_Raise {A B} (f : A -> res B) xs e :
  for_list xs f = Raise e -> exists x, x ∈ xs /\ f x = Raise e.
Proof.
  induction xs as [|x xs IH]; simpl; [done|].
  destruct (f x) as [b|e'] eqn:Hb.
  - destruct (for_list xs f) as [bs|e'] eqn:Hbs; [done|].
    intros [= ->]. destruct IH as (x' & Hx' & He); [done|].
    exists x'. split; [by right|done].
  - intros [= ->]. exists x. split; [by left|done].
Qed.

Lemma dict_keys_set_inv {K V} `{EqDecision K} (k k' : K) (v : V) d :
  k' ∈ dict_keys (dict_set k v d) -> k' = k \/ k' ∈ dict_keys d.
Proof.
  unfold dict_keys. induction d as [|[k0 v0] d IH]; simpl.
  - intros ->%list_elem_of_singleton. by left.
  - destruct (decide (k = k0)) as [->|Hne]; simpl.
    + by right.
    + intros [->|Hin]%elem_of_cons.
      * right. by left.
      * destruct (IH Hin) as [->|Hd]; [by left|right; by right].
Qed.

Lemma dict_keys_set_new {K V} `{EqDecision K} (k : K) (v : V) d :
  k ∈ dict_keys (dict_set k v d).
Proof.
  unfold dict_keys. induction d as [|[k0 v0] d IH]; simpl.
  - by left.
  - destruct (decide (k = k0)) as [->|Hne]; simpl; [by left|by right].
Qed.

Lemma dict_set_NoDup {K V} `{EqDecision K} (k : K) (v : V) d :
  NoDup (dict_keys d) -> NoDup (dict_keys (dict_set k v d)).
Proof.
  unfold dict_keys. induction d as [|[k0 v0] d IH]; simpl; intros Hnd.
  - apply NoDup_singleton.
  - apply NoDup_cons in Hnd as [Hk0 Hnd].
    destruct (decide (k = k0)) as [->|Hne]; simpl.
    + by apply NoDup_cons.
    + apply NoDup_cons. split; [|by apply IH].
      intros [?|Hin]%(dict_keys_set_inv k k0 v d); [congruence|done].
Qed.

Lemma dict_set_length {K V} `{EqDecision K} (k : K) (v : V) d :
  (length (dict_set k v d) <= S (length d))%nat.
Proof.
  induction d as [|[k0 v0] d IH]; simpl; [lia|].
  destruct (decide (k = k0)); simpl; lia.
Qed.

Lemma dict_of_pairs {K V} `{EqDecision K} (vals : list (K * V)) d :
  NoDup (dict_keys d) ->
  NoDup (dict_keys
           (fold_left (fun results fv => dict_set fv.1 fv.2 results) vals d)) /\
  (forall k,
     k ∈ dict_keys
           (fold_left (fun results fv => dict_set fv.1 fv.2 results) vals d)
     <-> k ∈ dict_keys d \/ k ∈ vals.*1) /\
  (length (fold_left (fun results fv => dict_set fv.1 fv.2 results) vals d)
   <= length d + length vals)%nat.
Proof.
  revert d. induction vals as [|[k0 v0] vals IH]; simpl; intros d Hnd.
  - split_and!; [done| |lia].
    intros k. split; [by left|]. by intros [?|?%elem_of_nil].
  - destruct (IH (dict_set k0 v0 d)) as (Hnd' & Hkeys & Hlen);
      [by apply dict_set_NoDup|].
    split_and!; [done| |].
    + intros k. rewrite Hkeys. split.
      * intros [[->|Hd]%dict_keys_set_inv|Hv].
        -- right. by left.
        -- by left.
        -- right. by right.
      * intros [Hd|[->|Hv]%elem_of_cons].
        -- left. by apply dict_keys_set.
        -- left. apply dict_keys_set_new.
        -- by right.
    + pose proof (dict_set_length k0 v0 d). lia.
Qed.

Lemma extract_topn_keys round3 feature_names sorted_items topn keywords :
  TfIdf._extract_topn_from_vector round3 feature_names sorted_items topn
    = Ok keywords ->
  NoDup (dict_keys keywords) /\
  (forall k, k ∈ dict_keys keywords <->
     exists item, item ∈ slice_to topn sorted_items /\
                  feature_names !! item.1 = Some k) /\
  (length keywords <= length (slice_to topn sorted_items))%nat.
Proof.
  unfold TfIdf._extract_topn_from_vector.
  destruct (for_list _ _) as [vals|e] eqn:Hvals; [|done].
  intros [= <-]. apply for_list_Ok in Hvals.
  destruct (dict_of_pairs vals []) as (Hnd & Hkeys & Hlen);
    [apply NoDup_nil_2|].
  split_and!; [done| |].
  - intros k. rewrite Hkeys. split.
    + intros [?%elem_of_nil|Hk]; [done|].
      apply list_elem_of_fmap in Hk as ([k' v] & -> & Hin).
      apply list_elem_of_lookup in Hin as [i Hi].
      destruct (Forall2_lookup_r _ _ _ _ _ Hvals Hi) as (item & Hitem & Hf).
      exists item. split; [by eapply list_elem_of_lookup_2|].
      destruct (feature_names !! item.1); [|done]. by injection Hf as -> _.
    + intros (item & Hin & Hname). right.
      apply list_elem_of_lookup in Hin as [i Hi].
      destruct (Forall2_lookup_l _ _ _ _ _ Hvals Hi) as ([k' v] & Hv & Hf).
      rewrite Hname in Hf. injection Hf as -> _.
      apply list_elem_of_fmap. exists (k', v).
      split; [done|by eapply list_elem_of_lookup_2].
  - apply Forall2_length in Hvals. simpl in Hlen. lia.
Qed.

(** TfIdf: when [predict] returns, no keyword is listed twice, the
    keywords are exactly the feature names of the [n_keywords] entries
    of the vector that come first by score and column, highest first,
    and for a non-negative [n_keywords] there are at most that many. *)
Theorem tfidf_predict_keywords round3 feature_names n_keywords col data r :
  TfIdf.predict round3 feature_names n_keywords col data = Ok r ->
  NoDup r /\
  (forall k, k ∈ r <->
     exists item, item ∈ slice_to n_keywords (TfIdf.__sort_coo col data) /\
                  feature_names !! item.1 = Some k) /\
  (0 <= n_keywords -> (length r <= Z.to_nat n_keywords)%nat).
Proof.
  unfold TfIdf.predict.
  destruct (TfIdf._extract_topn_from_vector _ _ _ _) as [keywords|e] eqn:Hk;
    [|done].
  intros [= <-]. apply extract_topn_keys in Hk as (Hnd & Hkeys & Hlen).
  pose proof (sorted_Permutation
                (fun p q : string * float => PrimFloat.ltb p.2 q.2) keywords)
    as Hp.
  split_and!.
  - change (NoDup (dict_keys (sorted (fun p q : string * float =>
                                        PrimFloat.ltb p.2 q.2) keywords))).
    unfold dict_keys in *. by rewrite Hp.
  - intros k. rewrite <- Hkeys. unfold dict_keys.
    change (map fst ?l) with (l.*1). by rewrite Hp.
  - intros Hn. rewrite length_map, Hp.
    pose proof (slice_to_length n_keywords (TfIdf.__sort_coo col data) Hn).
    lia.
Qed.

Lemma tfidf_predict_keywords_witness :
  let names := ["cat"; "dog"; "fox"] in
  NoDup ["cat"; "fox"] /\
  (forall k, k ∈ ["cat"; "fox"] <->
     exists item,
       item ∈ slice_to 2 (TfIdf.__sort_coo [0; 1; 2]%nat
                            [0.5; 0.25; 0.75]%float) /\
       names !! item.1 = Some k) /\
  (0 <= 2 -> (length ["cat"; "fox"] <= Z.to_nat 2)%nat).
Proof.
  intros names.
  apply (tfidf_predict_keywords (fun x => x) names 2 [0; 1; 2]%nat
           [0.5; 0.25; 0.75]%float).
  vm_compute. reflexivity.
Defined.

(** TfIdf: [predict] returns a list when every column index among the
    first [n_keywords] entries is below the number of feature names,
    and raises [IndexError] when one of them is not. *)
Theorem tfidf_predict_index_error round3 feature_names n_keywords col data :
  ((forall item, item ∈ slice_to n_keywords (TfIdf.__sort_coo col data) ->
                 (item.1 < length feature_names)%nat) ->
   exists r, TfIdf.predict round3 feature_names n_keywords col data = Ok r) /\
  ((exists item, item ∈ slice_to n_keywords (TfIdf.__sort_coo col data) /\
                 (length feature_names <= item.1)%nat) ->
   TfIdf.predict round3 feature_names n_keywords col data = Raise IndexError).
Proof.
  unfold TfIdf.predict, TfIdf._extract_topn_from_vector. split.
  - intros Hall.
    destruct (for_list_total
                (fun item : nat * float =>
                   match feature_names !! item.1 with
                   | Some name => Ok (name, round3 item.2)
                   | None => Raise IndexError
                   end)
                (slice_to n_keywords (TfIdf.__sort_coo col data)))
      as [vals Hvals].
    + apply Forall_forall. intros item Hin.
      destruct (lookup_lt_is_Some_2 feature_names item.1 (Hall item Hin))
        as [name Hname].
      rewrite Hname. by eexists.
    + rewrite Hvals. by eexists.
  - intros (item & Hin & Hlen).
    destruct (for_list _ _) as [vals|e] eqn:Hvals.
    + apply for_list_Ok in Hvals.
      apply list_elem_of_lookup in Hin as [i Hi].
      destruct (Forall2_lookup_l _ _ _ _ _ Hvals Hi) as (y & _ & Hf).
      by rewrite (lookup_ge_None_2 feature_names item.1 Hlen) in Hf.
    + apply for_list_Raise in Hvals as (x & _ & Hf).
      destruct (feature_names !! x.1); [done|]. by injection Hf as <-.
Qed.

(** ** Which member stands for a topic *)

Lemma selection_loop_heads (m : gmap string (nat * string))
    (ts : list (float * list string)) (result : list string)
    (self self' : TopicalPagerank) r :
  Forall (fun rank_topic => rank_topic.2 <> []) ts ->
  for_fold ts result
    (fun result rank_topic =>
       match first_kp rank_topic.2 with
       | None => ret result
       | Some kp =>
           let* s := lift (unstem_kp m kp) in
           ret (result ++ [s])
       end) self = (self', Ok r) ->
  exists out, r = result ++ out /\
    Forall2 (fun rank_topic s =>
               exists kp, first_kp rank_topic.2 = Some kp /\
                          unstem_kp m kp = Ok s) ts out.
Proof.
  revert result. induction ts as [|[rank topic] ts IH]; intros result Hall.
  { intros [= _ <-]. exists []. split; [by rewrite app_nil_r|constructor]. }
  inversion Hall as [|? ? Htopic Hts]; subst. simpl in Htopic.
  rewrite for_fold_cons. cbn [snd].
  destruct topic as [|kp topic]; [done|]. simpl.
  unfold bind at 1, lift at 1.
  destruct (unstem_kp m kp) as [s|e] eqn:Hs; [|done].
  intros Hrun. apply IH in Hrun as (out & -> & Hout); [|done].
  exists (s :: out). split; [by rewrite <- app_assoc|].
  constructor; [|done]. by exists kp.
Qed.

Lemma frozenset_iter_single E m :
  frozenset_ok E -> frozenset_iter E [m] = [m].
Proof.
  intros Hfs. destruct (Hfs [m]) as [Hnd Hmem].
  destruct (frozenset_iter E [m]) as [|x l] eqn:Hl.
  { exfalso. apply (not_elem_of_nil m), Hmem. left. }
  assert (Hx : x = m).
  { apply list_elem_of_singleton, Hmem. left. }
  subst x. destruct l as [|y l]; [done|].
  assert (Hy : y = m).
  { apply list_elem_of_singleton, Hmem. right. left. }
  subst y. apply NoDup_cons in Hnd as [Hnot _]. exfalso. apply Hnot. left.
Qed.

(** The keyphrases [predict] returns are, topic by topic of
    [self.topics[:n_keywords]], the surface form of [topic[0]], and
    [topic] is the list of a cluster's members in the order in which its
    frozenset is iterated: nothing sorts the members.  A cluster of one
    member is represented by that member. *)
Lemma predict_takes_topic_head E X cluster_strategy max_d extract_strategy
    self self' r :
  frozenset_ok E ->
  predict E X cluster_strategy max_d extract_strategy self = (self', Ok r) ->
  Forall2
    (fun rank_topic s =>
       exists cluster_values members kp,
         identify_clusters E cluster_strategy max_d
           (dict_keys (phrases (_extract_phrases E (fit X self))))
           = Ok cluster_values /\
         members ∈ cluster_values /\
         rank_topic.2 = frozenset_iter E members /\
         head (frozenset_iter E members) = Some kp /\
         (forall m, members = [m] -> kp = m) /\
         unstem_kp (unstem_map self') kp = Ok s)
    (slice_to (n_keywords self) (topics self')) r.
Proof.
  intros Hfs. unfold predict.
  pose proof (_identify_topics_frame E cluster_strategy max_d
                (_extract_phrases E (fit X self))) as (Hk & _).
  destruct (_identify_topics _ _ _ _) as [self1 [[]|e]] eqn:Hrun; [|done].
  simpl in Hk. intros Hsel.
  assert (Hmem : forall rank topic,
            (rank, topic) ∈ slice_to (n_keywords self1) (topics self1) ->
            exists cluster_values members,
              identify_clusters E cluster_strategy max_d
                (dict_keys (phrases (_extract_phrases E (fit X self))))
                = Ok cluster_values /\
              members ∈ cluster_values /\
              topic = frozenset_iter E members /\ topic <> []).
  { intros rank topic Hin%slice_to_elem.
    destruct (_identify_topics_members _ _ _ _ _ _ _ Hrun Hin)
      as (cluster_values & members & Hc & Hm & ->).
    exists cluster_values, members. split_and!; [done..|].
    apply identify_clusters_nonempty in Hc. rewrite Forall_forall in Hc.
    specialize (Hc members Hm). destruct members as [|x members]; [done|].
    intros Hnil. destruct (Hfs (x :: members)) as [_ Hel].
    assert (Hx : x ∈ frozenset_iter E (x :: members)) by (apply Hel; left).
    rewrite Hnil in Hx. by apply elem_of_nil in Hx. }
  destruct (selection_loop (unstem_map self1)
              (slice_to (n_keywords self1) (topics self1)) [] self1)
    as (out & Hsame & _).
  pose proof Hsel as Hsel'. rewrite Hsame in Hsel'. injection Hsel' as <- ->.
  apply selection_loop_heads in Hsel as (out & -> & Hout).
  - rewrite Hk in *. simpl.
    apply Forall2_same_length_lookup. apply Forall2_same_length_lookup in Hout
      as [Hlen Hout].
    split; [done|]. intros i [rank topic] s Hi Hs.
    destruct (Hout i _ _ Hi Hs) as (kp & Hkp & Hu). simpl in Hkp.
    destruct (Hmem rank topic) as (cluster_values & members & Hc & Hm & -> & _).
    { by eapply list_elem_of_lookup_2. }
    exists cluster_values, members, kp. split_and!; [done..| |done].
    intros m ->. rewrite (frozenset_iter_single E m Hfs) in Hkp.
    by injection Hkp as <-.
  - apply Forall_forall. intros [rank topic] Hin. simpl.
    by destruct (Hmem rank topic Hin) as (? & ? & _ & _ & _ & Hne).
Qed.
